(** * A shallow embedding of the key-value server (redis-server/server.go,
    with its snapshot reader) and the properties of its store, wire decoder,
    command dispatcher and snapshot loader.

    Conventions of the embedding.
    - A Go [string] is a sequence of bytes: it is a Rocq [string], whose
      characters are 8-bit [ascii] values.
    - A Go [int] or [int64] is a [Z] together with its 64-bit wrap-around
      ([wrap64]) wherever the code does arithmetic on it.
    - A [time.Time] is a [Z]: an instant counted in nanoseconds since the
      Unix epoch.  A [time.Duration] is a 64-bit count of nanoseconds.
    - Every call of [time.Now()] is an explicit argument [now] of the
      function that makes the call.
    - The map of the store is a [gmap string StoreItem].  The lock of the
      store is not modelled: the functions below are the critical sections,
      run one after the other.
    - [go s.deleteKey(key)] starts a detached task: the functions that do it
      return the keys whose removal they scheduled. *)

From Stdlib Require Import ZArith String Ascii Strings.Byte List Bool Lia.
From Stdlib Require Import DecimalString.
From stdpp Require Import base gmap strings list.
Import ListNotations.

Local Open Scope string_scope.
Local Open Scope Z_scope.

(** ** Machine integers and time *)

Definition minInt64 : Z := - 2 ^ 63.
Definition maxInt64 : Z := 2 ^ 63 - 1.

(** The value a 64-bit signed register holds after an operation whose exact
    result is [z]. *)
Definition wrap64 (z : Z) : Z := (z + 2 ^ 63) mod 2 ^ 64 - 2 ^ 63.

Definition inInt64 (z : Z) : bool := (minInt64 <=? z) && (z <=? maxInt64).

Module Time.

(** [time.Millisecond] and [time.Second], in nanoseconds. *)
Definition Millisecond : Z := 1000000.
Definition Second : Z := 1000000000.

(** The zero [time.Time] (January 1 of year 1), the value of a field that
    was never assigned. *)
Definition zero : Z := -62135596800 * Second.

(** [time.Duration(px) * time.Millisecond]: a 64-bit product. *)
Definition ofMillis (px : Z) : Z := wrap64 (px * Millisecond).

(** [t.Add(d)]. *)
Definition Add (t d : Z) : Z := t + d.

(** [t.After(u)]: strictly later. *)
Definition After (t u : Z) : bool := u <? t.

(** [t.Sub(u)]: the difference, saturated to the range of a Duration. *)
Definition Sub (t u : Z) : Z :=
  let d := t - u in
  if d <? minInt64 then minInt64 else if maxInt64 <? d then maxInt64 else d.

(** [time.Until(t)], with the instant of the call as [now]. *)
Definition Until (t now : Z) : Z := Sub t now.

(** [d.Milliseconds()]: integer division, truncated towards zero. *)
Definition Milliseconds (d : Z) : Z := Z.quot d Millisecond.

(** [time.Unix(sec, 0)] and [time.UnixMilli(ms)]. *)
Definition Unix (sec : Z) : Z := sec * Second.
Definition UnixMilli (ms : Z) : Z := ms * Millisecond.

End Time.

(** ** The expiring key-value store (server.go, lines 24-70) *)

Record StoreItem := mkItem {
  value : string;
  hasExpiry : bool;
  expiresAt : Z
}.

Record Store := mkStore { data : gmap string StoreItem }.

(** [var store = &Store{data: make(map[string]StoreItem)}] *)
Definition emptyStore : Store := mkStore ∅.

(** [func (s *Store) Set(key, value string, px int64)]; [Set] is a reserved
    word, hence the prefix. *)
Definition Store_Set (s : Store) (key val : string) (px now : Z) : Store :=
  let item :=
    mkItem val (0 <? px)
           (if 0 <? px then Time.Add now (Time.ofMillis px) else Time.zero) in
  mkStore (<[key := item]> (data s)).

(** The test of lines 59 and 278. *)
Definition isExpired (item : StoreItem) (now : Z) : bool :=
  hasExpiry item && Time.After now (expiresAt item).

(** [func (s *Store) Get(key string) (string, bool)]: the value, the
    presence flag, and the keys handed to [go s.deleteKey]. *)
Definition Store_Get (s : Store) (key : string) (now : Z)
  : string * bool * list string :=
  match data s !! key with
  | None => ("", false, [])
  | Some item =>
      if isExpired item now then ("", false, [key])
      else (value item, true, [])
  end.

(** [func (s *Store) deleteKey(key string)] *)
Definition deleteKey (s : Store) (key : string) : Store :=
  mkStore (delete key (data s)).

(** [func getAllKeys(s *Store) []string]: the keys kept and the keys handed
    to [go s.deleteKey].  Go ranges over a map in an unspecified order; the
    model ranges in the order of [map_to_list], and the properties below
    speak of membership only. *)
Definition getAllKeys (s : Store) (now : Z) : list string * list string :=
  let entries := map_to_list (data s) in
  ((List.filter (fun e => negb (isExpired (snd e) now)) entries).*1,
   (List.filter (fun e => isExpired (snd e) now) entries).*1).

(** ** What the Go runtime and library contribute

    [maxAlloc] is the largest number of bytes one allocation may ask for
    (2^48 on linux/amd64): [make] panics on a negative length and on a
    request beyond it.  [ToUpper] and [ToLower] are [strings.ToUpper] and
    [strings.ToLower], which map Unicode letters; the development holds for
    any two functions, and [amd64] gives the instance that maps the ASCII
    letters, which is what Go computes on ASCII input. *)

Class GoRuntime := {
  maxAlloc : Z;
  ToUpper : string -> string;
  ToLower : string -> string
}.

Definition upperAscii (c : ascii) : ascii :=
  let n := nat_of_ascii c in
  if (97 <=? n)%nat && (n <=? 122)%nat then ascii_of_nat (n - 32) else c.

Definition lowerAscii (c : ascii) : ascii :=
  let n := nat_of_ascii c in
  if (65 <=? n)%nat && (n <=? 90)%nat then ascii_of_nat (n + 32) else c.

Fixpoint mapString (f : ascii -> ascii) (s : string) : string :=
  match s with
  | EmptyString => EmptyString
  | String c s' => String (f c) (mapString f s')
  end.

Definition amd64 : GoRuntime :=
  {| maxAlloc := 2 ^ 48;
     ToUpper := mapString upperAscii;
     ToLower := mapString lowerAscii |}.

(** [make([]T, n)] or [make([]T, 0, n)] for elements of [size] bytes returns
    (runtime.makeslice). *)
Definition makeOK `{GoRuntime} (size n : Z) : bool :=
  (0 <=? n) && (size * n <=? maxAlloc).

(** ** Strings *)

Definition CR : ascii := ascii_of_nat 13.
Definition LF : ascii := ascii_of_nat 10.
Definition CRLF : string := String CR (String LF EmptyString).

(** [strings.HasPrefix(s, prefix)] *)
Definition HasPrefix (s prefix : string) : bool := String.prefix prefix s.

Definition HasSuffix (s suffix : string) : bool :=
  let n := String.length s in
  let k := String.length suffix in
  (k <=? n)%nat && String.eqb (substring (n - k) k s) suffix.

(** [strings.TrimSuffix(s, suffix)] *)
Definition TrimSuffix (s suffix : string) : string :=
  if HasSuffix s suffix
  then substring 0 (String.length s - String.length suffix) s
  else s.

(** [s[1:]] of a string known to be non-empty. *)
Definition tail1 (s : string) : string :=
  match s with
  | EmptyString => EmptyString
  | String _ s' => s'
  end.

(** The decimal digits of a string, most significant first
    (the loop of strconv.Atoi and strconv.ParseUint in base 10). *)
Definition digitOf (c : ascii) : option Z :=
  let n := Z.of_nat (nat_of_ascii c) in
  if (48 <=? n) && (n <=? 57) then Some (n - 48) else None.

Fixpoint parseDigits (s : string) (acc : Z) : option Z :=
  match s with
  | EmptyString => Some acc
  | String c s' =>
      match digitOf c with
      | Some d => parseDigits s' (acc * 10 + d)
      | None => None
      end
  end.

(** [strconv.Atoi(s)] and [strconv.ParseInt(s, 10, 64)] where [int] has 64
    bits: an optional sign, at least one digit, nothing else, and a value in
    range; [None] stands for a non-nil error. *)
Definition Atoi (s : string) : option Z :=
  match s with
  | EmptyString => None
  | String c s' =>
      let neg := Ascii.eqb c "-"%char in
      let body := if neg || Ascii.eqb c "+"%char then s' else s in
      match body with
      | EmptyString => None
      | _ =>
          match parseDigits body 0 with
          | None => None
          | Some n =>
              let v := if neg then - n else n in
              if inInt64 v then Some v else None
          end
      end
  end.

Definition ParseInt (s : string) : option Z := Atoi s.

(** [fmt.Sprintf("%d", n)] for a length. *)
Definition itoa (n : nat) : string := NilEmpty.string_of_uint (Nat.to_uint n).

(** [fmt.Sprintf("$%d\r\n%s\r\n", len(s), s)] *)
Definition bulk (s : string) : string :=
  "$" ++ itoa (String.length s) ++ CRLF ++ s ++ CRLF.

(** ** The frame decoder (server.go, lines 117-163) *)

(** [reader.ReadString('\n')] over the bytes the client sends before it
    closes: the line up to and including the first line feed and what
    follows it; [None] when the stream ends first (the call then returns
    an error). *)
Fixpoint ReadString (input : string) : option (string * string) :=
  match input with
  | EmptyString => None
  | String c rest =>
      if Ascii.eqb c LF then Some (String c EmptyString, rest)
      else match ReadString rest with
           | Some (line, rest') => Some (String c line, rest')
           | None => None
           end
  end.

(** [io.ReadFull(reader, buf)] for a buffer of [n >= 0] bytes: the bytes
    read and the rest of the stream; [None] on a short read. *)
Definition ReadFull (n : Z) (input : string) : option (string * string) :=
  if Z.of_nat (String.length input) <? n then None
  else Some (substring 0 (Z.to_nat n) input,
             substring (Z.to_nat n) (String.length input - Z.to_nat n) input).

Inductive Decoded :=
| Frame (elements : list string) (rest : string)
| Stop          (* [return]: the deferred [conn.Close] runs *)
| Panic         (* a run-time panic: the process ends *)
| NoFuel.       (* the model ran out of fuel; see [readElements_fuel] *)

(** The loop of lines 137-163; [fuel] bounds the number of iterations,
    each of which consumes at least one byte of the stream. *)
Fixpoint readElements `{GoRuntime} (fuel : nat) (i arrayLen : Z)
    (elements : list string) (input : string) : Decoded :=
  if i <? arrayLen then
    match fuel with
    | O => NoFuel
    | S fuel' =>
        match ReadString input with
        | None => Stop
        | Some (bulkLen, rest) =>
            if negb (HasPrefix bulkLen "$") then Stop else
            match Atoi (TrimSuffix (tail1 bulkLen) CRLF) with
            | None => Stop
            | Some length =>
                let size := wrap64 (length + 2) in
                if negb (makeOK 1 size) then Panic else
                match ReadFull size rest with
                | None => Stop
                | Some (bulkData, rest') =>
                    (* bulkData[:length] *)
                    if length <? 0 then Panic else
                    readElements fuel' (wrap64 (i + 1)) arrayLen
                      (elements ++ [substring 0 (Z.to_nat length) bulkData])
                      rest'
                end
            end
        end
    end
  else Frame elements input.

(** One pass through lines 117-163: the next frame of the stream. *)
Definition decodeFrame `{GoRuntime} (input : string) : Decoded :=
  match ReadString input with
  | None => Stop
  | Some (firstLine, rest) =>
      if negb (HasPrefix firstLine "*") then Stop else
      match Atoi (TrimSuffix (tail1 firstLine) CRLF) with
      | None => Stop
      | Some arrayLen =>
          (* make([]string, 0, arrayLen): a string header has 16 bytes *)
          if negb (makeOK 16 arrayLen) then Panic else
          readElements (S (String.length rest)) 0 arrayLen [] rest
      end
  end.

(** ** The command dispatcher (server.go, lines 165-268) *)

Record Config := mkConfig { dir : string; dbfilename : string }.

(** How one pass through the loop body ends. *)
Inductive Next :=
| Continue      (* the loop decodes the next frame *)
| Return.       (* [return]: the connection is closed *)

(** What one command does: the arguments of its calls of [conn.Write], in
    order; the store it leaves; the keys whose removal it scheduled; and how
    the loop goes on. *)
Record Effect := mkEffect {
  written : list string;
  storeAfter : Store;
  scheduled : list string;
  next : Next
}.

(** A reply whose error is tested at lines 242-245: [wok] tells whether
    [conn.Write] succeeded. *)
Definition checked (wok : bool) (reply : string) (s : Store)
    (sched : list string) : Effect :=
  mkEffect [reply] s sched (if wok then Continue else Return).

(** A reply followed by [continue], or written by [handleConfigGet]: the
    error of [conn.Write] is not looked at. *)
Definition unchecked (reply : string) (s : Store) : Effect :=
  mkEffect [reply] s [] Continue.

(** [func handleConfigGet(conn net.Conn, param string)] *)
Definition handleConfigGet `{GoRuntime} (config : Config) (param : string)
  : string :=
  let lower := ToLower param in
  let val :=
    if String.eqb lower "dir" then dir config
    else if String.eqb lower "dbfilename" then dbfilename config
    else "" in
  "*2" ++ CRLF ++ bulk param ++ bulk val.

(** The reply of KEYS (lines 232-235). *)
Definition keysReply (keys : list string) : string :=
  fold_left (fun response key => response ++ bulk key) keys
            ("*" ++ itoa (List.length keys) ++ CRLF).

(** Lines 165-246 for the argument list [elements], with the store [s], the
    instant [now] that a call of [time.Now()] inside the command returns,
    and the success [wok] of the command's [conn.Write]. *)
Definition dispatch `{GoRuntime} (config : Config) (elements : list string)
    (s : Store) (now : Z) (wok : bool) : Effect :=
  match elements with
  | [] => mkEffect [] s [] Continue
  | name :: args =>
      let command := ToUpper name in
      if String.eqb command "PING" then
        checked wok ("+PONG" ++ CRLF) s []
      else if String.eqb command "ECHO" then
        match args with
        | [] =>
            unchecked
              ("-ERR wrong number of arguments for 'echo' command" ++ CRLF) s
        | arg :: _ => checked wok (bulk arg) s []
        end
      else if String.eqb command "SET" then
        match args with
        | key :: val :: opts =>
            match opts with
            | opt :: more =>
                if String.eqb (ToUpper opt) "PX" then
                  match more with
                  | [] => unchecked ("-ERR syntax error" ++ CRLF) s
                  | ms :: _ =>
                      match ParseInt ms with
                      | None =>
                          unchecked
                            ("-ERR invalid expire time in 'set' command"
                               ++ CRLF) s
                      | Some px =>
                          checked wok ("+OK" ++ CRLF)
                                  (Store_Set s key val px now) []
                      end
                  end
                else
                  checked wok ("+OK" ++ CRLF) (Store_Set s key val 0 now) []
            | [] => checked wok ("+OK" ++ CRLF) (Store_Set s key val 0 now) []
            end
        | _ =>
            unchecked
              ("-ERR wrong number of arguments for 'set' command" ++ CRLF) s
        end
      else if String.eqb command "GET" then
        match args with
        | [key] =>
            let '(val, exists_, sched) := Store_Get s key now in
            if negb exists_ then checked wok ("$-1" ++ CRLF) s sched
            else checked wok (bulk val) s sched
        | _ =>
            unchecked
              ("-ERR wrong number of arguments for 'get' command" ++ CRLF) s
        end
      else if String.eqb command "CONFIG" then
        match args with
        | sub :: param :: _ =>
            if String.eqb (ToUpper sub) "GET" then
              unchecked (handleConfigGet config param) s
            else checked wok ("-ERR Wrong number of arguments" ++ CRLF) s []
        | _ => checked wok ("-ERR Wrong number of arguments" ++ CRLF) s []
        end
      else if String.eqb command "KEYS" then
        match args with
        | [pattern] =>
            if negb (String.eqb pattern "*") then
              unchecked ("-ERR unsupported pattern" ++ CRLF) s
            else
              let '(keys, sched) := getAllKeys s now in
              checked wok (keysReply keys) s sched
        | _ =>
            unchecked
              ("-ERR wrong number of arguments for 'keys' command" ++ CRLF) s
        end
      else checked wok ("-ERR unknown command" ++ CRLF) s []
  end.

(** ** The connection handler (server.go, lines 112-248) *)

Inductive Ending :=
| Closed        (* the function returned and closed the connection *)
| Crashed       (* a panic ended the process *)
| Exhausted.    (* the model ran out of fuel; see [handleRequest_total] *)

Record Run := mkRun {
  replies : list string;
  finalStore : Store;
  removals : list string;
  ending : Ending
}.

(** The loop of lines 116-247.  The [n]-th pass decodes a frame, and its
    command sees the instant [clock n] and the write outcome [writes n].
    Each pass that goes on has consumed at least one byte, which bounds the
    number of passes by [fuel]. *)
Fixpoint handleLoop `{GoRuntime} (config : Config) (clock : nat -> Z)
    (writes : nat -> bool) (fuel n : nat) (input : string) (s : Store)
    (out sched : list string) : Run :=
  match fuel with
  | O => mkRun out s sched Exhausted
  | S fuel' =>
      match decodeFrame input with
      | Stop => mkRun out s sched Closed
      | Panic => mkRun out s sched Crashed
      | NoFuel => mkRun out s sched Exhausted
      | Frame elements rest =>
          let e := dispatch config elements s (clock n) (writes n) in
          match next e with
          | Return =>
              mkRun (out ++ written e) (storeAfter e)
                    (sched ++ scheduled e) Closed
          | Continue =>
              handleLoop config clock writes fuel' (S n) rest (storeAfter e)
                         (out ++ written e) (sched ++ scheduled e)
          end
      end
  end.

(** [func handleRequest(conn net.Conn)] on a connection that delivers
    [input] and then ends. *)
Definition handleRequest `{GoRuntime} (config : Config) (clock : nat -> Z)
    (writes : nat -> bool) (input : string) (s : Store) : Run :=
  handleLoop config clock writes (S (String.length input)) 0 input s [] [].

(** ** The snapshot reader (server.go, lines 287-492) *)

Module Rdb.

Definition RDBHeader : string := "REDIS0011".
Definition TypeString : byte := Byte.x00.
Definition MetadataStart : byte := Byte.xfa.
Definition DatabaseStart : byte := Byte.xfe.
Definition ExpireTimeMs : byte := Byte.xfc.
Definition ExpireTime : byte := Byte.xfd.
Definition EOF : byte := Byte.xff.
Definition ResizeDB : byte := Byte.xfb.

Record KeyValue := mkKeyValue {
  Key : string;
  Value : string;
  HasExpiry : bool;
  ExpiresAt : Z
}.

(** An open file: its content and the offset of the next read.  [Seek]
    may move the offset beyond the end. *)
Record File := mkFile { content : list byte; pos : nat }.

(** The error values [Read] can return, one per return statement. *)
Inductive Error :=
| OpenFailed
| ReadHeaderFailed
| InvalidHeader
| SkipMetadataFailed
| ReadDatabaseNumberFailed
| ReadAfterDatabaseNumberFailed
| Passed                      (* [return nil, err] with the error of a read *)
| UnsupportedValueType (b : byte)
| ReadKeyFailed
| ReadValueFailed
| ReadNextOpcodeFailed
| UnsupportedOpcode (b : byte).

(** The outcome of a computation on the file. *)
Inductive Res (A : Type) :=
| Ok (a : A) (f : File)
| Fail (e : Error)
| Panics
| Diverges.                   (* out of fuel *)
Arguments Ok {A} a f.
Arguments Fail {A} e.
Arguments Panics {A}.
Arguments Diverges {A}.

Definition M (A : Type) : Type := File -> Res A.

Definition ret {A} (a : A) : M A := fun f => Ok a f.
Definition fail {A} (e : Error) : M A := fun _ => Fail e.
Definition bind {A B} (m : M A) (k : A -> M B) : M B :=
  fun f =>
    match m f with
    | Ok a f' => k a f'
    | Fail e => Fail e
    | Panics => Panics
    | Diverges => Diverges
    end.

(** [if err != nil { return nil, e }] around a call. *)
Definition orFail {A} (m : M A) (e : Error) : M A :=
  fun f =>
    match m f with
    | Fail _ => Fail e
    | r => r
    end.

Notation "'get' x ':=' m 'in' k" := (bind m (fun x => k))
  (at level 10, x name, m at level 100, k at level 200,
   format "'[v' 'get'  x  :=  m  'in' '/' k ']'").
Notation "'exec' m 'in' k" := (bind m (fun _ => k))
  (at level 10, m at level 100, k at level 200,
   format "'[v' 'exec'  m  'in' '/' k ']'").

(** [file.Read(opcode)] with a buffer of one byte: [None] is [io.EOF]. *)
Definition readByte : M (option byte) :=
  fun f =>
    match nth_error (content f) (pos f) with
    | Some b => Ok (Some b) (mkFile (content f) (S (pos f)))
    | None => Ok None f
    end.

(** [file.Read(opcode)] where every error, [io.EOF] too, is returned. *)
Definition readOpcode (e : Error) : M byte :=
  get o := readByte in
  match o with
  | Some b => ret b
  | None => fail e
  end.

(** [io.ReadFull(file, buf)] for a buffer of [n] bytes; a buffer of no
    bytes is filled at any offset. *)
Definition readFull (n : nat) : M (list byte) :=
  fun f =>
    let avail := skipn (pos f) (content f) in
    if (n <=? List.length avail)%nat
    then Ok (firstn n avail) (mkFile (content f) (pos f + n))
    else Fail Passed.

(** [file.Seek(offset, io.SeekCurrent)]: an offset before the start of
    the file is an error. *)
Definition seek (offset : Z) : M unit :=
  fun f =>
    let target := Z.of_nat (pos f) + offset in
    if target <? 0 then Fail Passed
    else Ok tt (mkFile (content f) (Z.to_nat target)).

(** The unsigned little-endian value of a sequence of bytes. *)
Fixpoint littleEndian (bs : list byte) : Z :=
  match bs with
  | [] => 0
  | b :: bs' => Z.of_N (Byte.to_N b) + 256 * littleEndian bs'
  end.

(** [binary.Read(file, binary.LittleEndian, &v)] for [v] of type int32,
    uint32 and uint64. *)
Definition readInt32 : M Z :=
  get bs := readFull 4 in
  let u := littleEndian bs in
  ret (if u <? 2 ^ 31 then u else u - 2 ^ 32).
Definition readUint32 : M Z :=
  get bs := readFull 4 in ret (littleEndian bs).
Definition readUint64 : M Z :=
  get bs := readFull 8 in ret (littleEndian bs).

(** [func (r *Reader) readLength(file *os.File) (int, error)] *)
Definition readLength : M Z := readInt32.

(** [func (r *Reader) skipString(file *os.File) error] *)
Definition skipString : M unit :=
  get length := readLength in
  seek length.

(** [func (r *Reader) skipMetadata(file *os.File) error] *)
Definition skipMetadata : M unit :=
  exec skipString in skipString.

(** [func (r *Reader) readString(file *os.File) (string, error)];
    [make([]byte, length)] panics on a negative length. *)
Definition readString `{GoRuntime} : M string :=
  get length := readLength in
  if negb (makeOK 1 length) then (fun _ => Panics)
  else
    get bs := readFull (Z.to_nat length) in
    ret (string_of_list_byte bs).

(** The optional expiry of a record (lines 392-413): the two fields of
    the pair and the byte in [opcode] afterwards. *)
Definition readExpiry (opcode : byte) : M (bool * Z * byte) :=
  if Byte.eqb opcode ExpireTime then
    get expires := readUint32 in
    get op := readOpcode Passed in
    ret (true, Time.Unix expires, op)
  else if Byte.eqb opcode ExpireTimeMs then
    get expires := readUint64 in
    get op := readOpcode Passed in
    ret (true, Time.UnixMilli (wrap64 expires), op)
  else ret (false, Time.zero, opcode).

(** The loop of lines 388-439, entered with the byte [opcode] last read.
    It returns the records and the byte that ended it. *)
Fixpoint readRecords `{GoRuntime} (fuel : nat) (opcode : byte)
    (pairs : list KeyValue) : M (list KeyValue * byte) :=
  if Byte.eqb opcode DatabaseStart || Byte.eqb opcode EOF
  then ret (pairs, opcode)
  else
    match fuel with
    | O => fun _ => Diverges
    | S fuel' =>
        get expiry := readExpiry opcode in
        let '(hasExp, expAt, opcode1) := expiry in
        if negb (Byte.eqb opcode1 TypeString)
        then fail (UnsupportedValueType opcode1)
        else
          get key := orFail readString ReadKeyFailed in
          get val := orFail readString ReadValueFailed in
          get opcode2 := readOpcode ReadNextOpcodeFailed in
          readRecords fuel' opcode2
            (pairs ++ [mkKeyValue key val hasExp expAt])
    end.

(** The body of [case DatabaseStart] (lines 363-439). *)
Definition readDatabase `{GoRuntime} (fuel : nat) (pairs : list KeyValue)
  : M (list KeyValue * byte) :=
  exec orFail readLength ReadDatabaseNumberFailed in
  get opcode := readOpcode ReadAfterDatabaseNumberFailed in
  get opcode' :=
    (if Byte.eqb opcode ResizeDB then
       exec readLength in
       exec readLength in
       readOpcode Passed
     else ret opcode) in
  readRecords fuel opcode' pairs.

(** The loop of lines 348-447.  Every pass starts by reading a fresh
    opcode from the file: the byte on which [readRecords] stopped is
    overwritten and takes no part in the [switch]. *)
Fixpoint readOpcodes `{GoRuntime} (fuel : nat) (pairs : list KeyValue)
  : M (list KeyValue) :=
  match fuel with
  | O => fun _ => Diverges
  | S fuel' =>
      get o := readByte in
      match o with
      | None => ret pairs
      | Some opcode =>
          if Byte.eqb opcode MetadataStart then
            exec orFail skipMetadata SkipMetadataFailed in
            readOpcodes fuel' pairs
          else if Byte.eqb opcode DatabaseStart then
            get r := readDatabase fuel' pairs in
            readOpcodes fuel' (fst r)
          else if Byte.eqb opcode EOF then ret pairs
          else fail (UnsupportedOpcode opcode)
      end
  end.

(** What [os.Open(r.filepath)] finds. *)
Inductive Opened :=
| NotExist
| OpenError
| IsFile (bytes : list byte).

(** What [Read] returns: the records (the nil slice is the empty list) and
    no error, or an error; or it panics. *)
Inductive Result :=
| Pairs (pairs : list KeyValue)
| Failed (e : Error)
| Panicked
| OutOfFuel.

(** [func (r *Reader) Read() ([]KeyValue, error)] *)
Definition Read `{GoRuntime} (fuel : nat) (o : Opened) : Result :=
  match o with
  | NotExist => Pairs []
  | OpenError => Failed OpenFailed
  | IsFile bytes =>
      let body :=
        get header := orFail (readFull (String.length RDBHeader))
                             ReadHeaderFailed in
        if negb (String.eqb (string_of_list_byte header) RDBHeader)
        then fail InvalidHeader
        else readOpcodes fuel [] in
      match body (mkFile bytes 0) with
      | Ok pairs _ => Pairs pairs
      | Fail e => Failed e
      | Panics => Panicked
      | Diverges => OutOfFuel
      end
  end.

End Rdb.

(** ** Loading the snapshot at startup (server.go, lines 77-93) *)

(** The loop of lines 83-92.  [clock k] is the instant the [k]-th call of
    [time.Now()] returns, and [tick] counts the calls made so far:
    [time.Until] makes one, and [Store.Set] makes one when [px > 0]. *)
Fixpoint loadPairs (clock : nat -> Z) (tick : nat) (pairs : list Rdb.KeyValue)
    (s : Store) : Store :=
  match pairs with
  | [] => s
  | kv :: rest =>
      if Rdb.HasExpiry kv then
        let px := Time.Milliseconds
                    (Time.Until (Rdb.ExpiresAt kv) (clock tick)) in
        if px <=? 0 then loadPairs clock (S tick) rest s
        else loadPairs clock (S (S tick)) rest
               (Store_Set s (Rdb.Key kv) (Rdb.Value kv) px (clock (S tick)))
      else
        loadPairs clock tick rest
          (Store_Set s (Rdb.Key kv) (Rdb.Value kv) 0 (clock tick))
  end.

(** Lines 78-93 of [main]: the store when the server starts to listen;
    [None] when [Read] does not return. *)
Definition startup `{GoRuntime} (fuel : nat) (clock : nat -> Z)
    (o : Rdb.Opened) : option Store :=
  match Rdb.Read fuel o with
  | Rdb.Pairs pairs => Some (loadPairs clock 0 pairs emptyStore)
  | Rdb.Failed _ => Some emptyStore
  | Rdb.Panicked => None
  | Rdb.OutOfFuel => None
  end.

(** A record that the loop skips at whatever instant of [clock] it is
    checked: its expiry is less than one millisecond ahead of every
    instant. *)
Definition alwaysSkipped (clock : nat -> Z) (kv : Rdb.KeyValue) : Prop :=
  Rdb.HasExpiry kv = true /\
  forall t, Rdb.ExpiresAt kv < clock t + Time.Millisecond.

(** ** Concrete inputs used by the examples below *)

(** A line of the wire protocol: the text followed by CR LF. *)
Definition line (s : string) : string := s ++ CRLF.

(** A frame of the wire protocol for the arguments [args]. *)
Definition frameOf (args : list string) : string :=
  fold_left
    (fun acc a => acc ++ line ("$" ++ itoa (String.length a)) ++ line a)
    args (line ("*" ++ itoa (List.length args))).

Definition sampleConfig : Config := mkConfig "/tmp/x" "dump.rdb".

(** A store with the single key "k", written at instant 95 with a TTL of
    5 ms: its expiry is the instant 5000095. *)
Definition storeWithTtl : Store := Store_Set emptyStore "k" "v" 5 95.

Module Samples.
Import Byte.

Definition header : list byte := list_byte_of_string Rdb.RDBHeader.
(** Database selector with index 0, and with index 1. *)
Definition db0 : list byte := [xfe; x00; x00; x00; x00].
Definition db1 : list byte := [xfe; x01; x00; x00; x00].
(** The record "a" -> "b" without expiry. *)
Definition recordAB : list byte :=
  [x00; x01; x00; x00; x00; x61; x01; x00; x00; x00; x62].

Definition pairAB : Rdb.KeyValue := Rdb.mkKeyValue "a" "b" false Time.zero.
Definition pairCD : Rdb.KeyValue := Rdb.mkKeyValue "c" "d" true 2000000.

End Samples.

From Stdlib Require Import DecimalNat.

(** ** Vocabulary of the further properties *)

(** The elements of an array reply, one bulk string after the other: what
    the loop of lines 233-235 adds to the count line. *)
Definition bulkAll (keys : list string) : string :=
  fold_right (fun key rest => bulk key ++ rest) "" keys.

(** An element whose buffer of [len+2] bytes the decoder can allocate
    without wrap-around, and a frame whose count and elements are such. *)
Definition elementFits `{GoRuntime} (a : string) : Prop :=
  Z.of_nat (String.length a) + 2 <= maxAlloc /\
  Z.of_nat (String.length a) + 2 <= maxInt64.

Definition frameFits `{GoRuntime} (args : list string) : Prop :=
  16 * Z.of_nat (List.length args) <= maxAlloc /\
  Z.of_nat (List.length args) <= maxInt64 /\
  Forall elementFits args.

(** The bytes of a connection that sends the frames one after the other
    and then closes. *)
Definition streamOf (frames : list (list string)) : string :=
  fold_right (fun elements rest => frameOf elements ++ rest) "" frames.

(** The dispatcher run over a list of argument lists, the way the loop of
    [handleRequest] threads the store, the pass number and the output
    through its passes: it stops at the first command whose write fails. *)
Fixpoint dispatchAll `{GoRuntime} (config : Config) (clock : nat -> Z)
    (writes : nat -> bool) (n : nat) (frames : list (list string))
    (s : Store) (out sched : list string) : Run :=
  match frames with
  | [] => mkRun out s sched Closed
  | elements :: more =>
      let e := dispatch config elements s (clock n) (writes n) in
      match next e with
      | Return =>
          mkRun (out ++ written e) (storeAfter e) (sched ++ scheduled e)
                Closed
      | Continue =>
          dispatchAll config clock writes (S n) more (storeAfter e)
                      (out ++ written e) (sched ++ scheduled e)
      end
  end.

(** The scheduled removals, run one after the other. *)
Definition runRemovals (s : Store) (keys : list string) : Store :=
  fold_left deleteKey keys s.

(** The value CONFIG GET reports for a parameter (the [switch] of lines
    252-259). *)
Definition configValue `{GoRuntime} (config : Config) (param : string)
  : string :=
  if String.eqb (ToLower param) "dir" then dir config
  else if String.eqb (ToLower param) "dbfilename" then dbfilename config
  else "".

(** A reply of the wire protocol: it starts with one of the type bytes
    [+], [-], [$], [*] and ends with CR LF. *)
Definition wellFormedReply (r : string) : Prop :=
  (HasPrefix r "+" || HasPrefix r "-" || HasPrefix r "$" || HasPrefix r "*")
    = true /\
  HasSuffix r CRLF = true.

(** The bytes of a reply, written out: a line ends with the two bytes 13
    and 10, a length is printed in decimal, and a bulk string is the line
    of its length followed by the line of its bytes. *)
Abbreviation eol := (String "013"%char (String "010"%char EmptyString))
  (only parsing).
Abbreviation decimalOf n := (NilEmpty.string_of_uint (Nat.to_uint n))
  (only parsing).
Abbreviation bulkOf s := ("$" ++ decimalOf (String.length s) ++ eol ++ s ++ eol)
  (only parsing).

(** Both ways the handler leaves its loop close the connection: the
    deferred [conn.Close] of line 113 runs when [handleRequest] returns and
    when a panic unwinds it. *)
Definition connectionClosed (e : Ending) : Prop := e = Closed \/ e = Crashed.

(** A short read in a frame of [arrayLen] elements, seen from its element
    [i] with [input] ahead: some element declares a length [L] and fewer
    than [L + 2] bytes follow its header, the elements before it being
    followed by all of theirs. *)
Inductive shortElement (arrayLen : Z) : Z -> string -> Prop :=
| shortHere (i : Z) (input bulkLen rest : string) (L : Z) :
    i < arrayLen ->
    ReadString input = Some (bulkLen, rest) ->
    HasPrefix bulkLen "$" = true ->
    Atoi (TrimSuffix (tail1 bulkLen) CRLF) = Some L ->
    Z.of_nat (String.length rest) < L + 2 ->
    shortElement arrayLen i input
| shortLater (i : Z) (input bulkLen rest : string) (L : Z)
    (body rest' : string) :
    i < arrayLen ->
    ReadString input = Some (bulkLen, rest) ->
    HasPrefix bulkLen "$" = true ->
    Atoi (TrimSuffix (tail1 bulkLen) CRLF) = Some L ->
    ReadFull (L + 2) rest = Some (body, rest') ->
    shortElement arrayLen (i + 1) rest' ->
    shortElement arrayLen i input.

(** A stream that starts with the count line of a frame one of whose
    elements has a short read. *)
Definition shortFrame (input : string) : Prop :=
  exists firstLine rest arrayLen,
    ReadString input = Some (firstLine, rest) /\
    HasPrefix firstLine "*" = true /\
    Atoi (TrimSuffix (tail1 firstLine) CRLF) = Some arrayLen /\
    shortElement arrayLen 0 rest.

(** The layout of a snapshot file, as [Read] expects it. *)
Module Snapshot.
Import Rdb.

(** An open file of which the bytes [before] have been read and the bytes
    [ahead] are still to come. *)
Definition cursor (before ahead : list byte) : File :=
  mkFile (before ++ ahead) (List.length before).

(** The byte with the value [n mod 256]. *)
Definition byteOf (n : Z) : byte :=
  match Byte.of_N (Z.to_N (n mod 256)) with
  | Some b => b
  | None => Byte.x00
  end.

(** The [width] low bytes of [n], least significant first. *)
Fixpoint encodeLE (width : nat) (n : Z) : list byte :=
  match width with
  | O => []
  | S width' => byteOf n :: encodeLE width' (n / 256)
  end.

(** A string: its length on four bytes, then its bytes. *)
Definition encodeString (s : string) : list byte :=
  encodeLE 4 (Z.of_nat (String.length s)) ++ list_byte_of_string s.

(** A metadata entry: the marker, a key and a value. *)
Definition encodeMetadata (entry : string * string) : list byte :=
  MetadataStart :: encodeString (fst entry) ++ encodeString (snd entry).

(** A record: an expiry in milliseconds when it has one, the type byte of
    a string, the key and the value. *)
Definition encodeRecord (kv : KeyValue) : list byte :=
  (if HasExpiry kv
   then ExpireTimeMs :: encodeLE 8 (ExpiresAt kv / Time.Millisecond)
   else [])
  ++ TypeString :: encodeString (Key kv) ++ encodeString (Value kv).

(** The first byte of a record, and the bytes after it. *)
Definition firstByte (kv : KeyValue) : byte :=
  if HasExpiry kv then ExpireTimeMs else TypeString.

Definition restBytes (kv : KeyValue) : list byte :=
  (if HasExpiry kv
   then encodeLE 8 (ExpiresAt kv / Time.Millisecond) ++ [TypeString]
   else [])
  ++ encodeString (Key kv) ++ encodeString (Value kv).

Definition encodeRecords (pairs : list KeyValue) : list byte :=
  concat (map encodeRecord pairs).

(** The optional resize hint: the marker and the two table sizes. *)
Definition encodeResize (sizes : option (Z * Z)) : list byte :=
  match sizes with
  | Some (a, b) => ResizeDB :: encodeLE 4 a ++ encodeLE 4 b
  | None => []
  end.

(** A database section: the selector with the database index, the resize
    hint when there is one, and the records. *)
Definition encodeDatabase (index : Z) (sizes : option (Z * Z))
    (pairs : list KeyValue) : list byte :=
  DatabaseStart :: encodeLE 4 index ++ encodeResize sizes
  ++ encodeRecords pairs.

(** A file up to the end of the records of its one database: the
    signature, metadata entries, and the database section. *)
Definition encodeUpTo (metadata : list (string * string)) (index : Z)
    (sizes : option (Z * Z)) (pairs : list KeyValue) : list byte :=
  list_byte_of_string RDBHeader
  ++ concat (map encodeMetadata metadata)
  ++ encodeDatabase index sizes pairs.

(** A complete file: the end marker is its last byte. *)
Definition encodeFile (metadata : list (string * string)) (index : Z)
    (sizes : option (Z * Z)) (pairs : list KeyValue) : list byte :=
  encodeUpTo metadata index sizes pairs ++ [EOF].

(** A metadata entry whose two skips lead back to its own marker: the key
    [key], and a value length of minus the bytes read so far. *)
Definition loopEntry (key : string) : list byte :=
  MetadataStart :: encodeString key
  ++ encodeLE 4 (- (9 + Z.of_nat (String.length key))).

(** A string whose length fits the four-byte signed length field and can
    be allocated. *)
Definition stringFits `{GoRuntime} (s : string) : Prop :=
  Z.of_nat (String.length s) < 2 ^ 31 /\
  Z.of_nat (String.length s) <= maxAlloc.

Definition metadataFits (entry : string * string) : Prop :=
  Z.of_nat (String.length (fst entry)) < 2 ^ 31 /\
  Z.of_nat (String.length (snd entry)) < 2 ^ 31.

(** A record the layout can carry: strings that fit, and an expiry that is
    a whole number of milliseconds from the epoch that fits 63 bits (the
    zero time for a record without expiry). *)
Definition recordFits `{GoRuntime} (kv : KeyValue) : Prop :=
  stringFits (Key kv) /\ stringFits (Value kv) /\
  if HasExpiry kv
  then exists ms, 0 <= ms < 2 ^ 63 /\ ExpiresAt kv = ms * Time.Millisecond
  else ExpiresAt kv = Time.zero.

End Snapshot.

(** * Properties *)

(** ** Machine arithmetic *)

Lemma wrap64_id (z : Z) : minInt64 <= z <= maxInt64 -> wrap64 z = z.
Proof.
  unfold wrap64, minInt64, maxInt64. intros Hz.
  rewrite Z.mod_small by lia. lia.
Qed.

Lemma inInt64_spec (z : Z) : inInt64 z = true <-> minInt64 <= z <= maxInt64.
Proof. unfold inInt64. rewrite andb_true_iff, !Z.leb_le. tauto. Qed.

Lemma ofMillis_exact (px : Z) :
  0 <= px <= 9223372036854 -> Time.ofMillis px = px * Time.Millisecond.
Proof.
  intros Hpx. unfold Time.ofMillis. apply wrap64_id.
  unfold minInt64, maxInt64, Time.Millisecond. lia.
Qed.

(** ** The store *)

Module StoreProps.

Lemma isExpired_spec (item : StoreItem) (now : Z) :
  isExpired item now = true <-> hasExpiry item = true /\ expiresAt item < now.
Proof.
  unfold isExpired, Time.After. rewrite andb_true_iff, Z.ltb_lt. tauto.
Qed.

Lemma isExpired_false (item : StoreItem) (now : Z) :
  isExpired item now = false <->
  hasExpiry item = false \/ now <= expiresAt item.
Proof.
  unfold isExpired, Time.After. rewrite andb_false_iff, Z.ltb_ge. tauto.
Qed.

(** A key is in the scan of [getAllKeys] exactly when the map has it with
    an entry that is not expired at the instant of the scan. *)
Lemma elem_of_getAllKeys (s : Store) (now : Z) (key : string) :
  key ∈ (getAllKeys s now).1 <->
  exists item, data s !! key = Some item /\ isExpired item now = false.
Proof.
  unfold getAllKeys. cbn [fst]. rewrite list_elem_of_fmap. split.
  - intros [[k item] [Heq Hin]]. cbn in Heq. subst k.
    apply list_elem_of_In, filter_In in Hin. destruct Hin as [Hin Hkeep].
    apply list_elem_of_In, elem_of_map_to_list in Hin.
    exists item. split; [exact Hin|]. now apply negb_true_iff in Hkeep.
  - intros [item [Hlook Hlive]]. exists (key, item). split; [reflexivity|].
    apply list_elem_of_In, filter_In. split.
    + now apply list_elem_of_In, elem_of_map_to_list.
    + cbn. now rewrite Hlive.
Qed.

(** The keys a scan hands to [deleteKey] are the expired ones. *)
Lemma elem_of_getAllKeys_scheduled (s : Store) (now : Z) (key : string) :
  key ∈ (getAllKeys s now).2 <->
  exists item, data s !! key = Some item /\ isExpired item now = true.
Proof.
  unfold getAllKeys. cbn [snd]. rewrite list_elem_of_fmap. split.
  - intros [[k item] [Heq Hin]]. cbn in Heq. subst k.
    apply list_elem_of_In, filter_In in Hin. destruct Hin as [Hin Hdead].
    apply list_elem_of_In, elem_of_map_to_list in Hin.
    exists item. split; [exact Hin|exact Hdead].
  - intros [item [Hlook Hdead]]. exists (key, item). split; [reflexivity|].
    apply list_elem_of_In, filter_In. split.
    + now apply list_elem_of_In, elem_of_map_to_list.
    + exact Hdead.
Qed.

(** What [Get] answers for a key the map holds. *)
Lemma Store_Get_present (s : Store) (key : string) (item : StoreItem)
    (now : Z) :
  data s !! key = Some item ->
  Store_Get s key now =
    if isExpired item now then ("", false, [key]) else (value item, true, []).
Proof. intros Hlook. unfold Store_Get. now rewrite Hlook. Qed.

Lemma Store_Get_absent (s : Store) (key : string) (now : Z) :
  data s !! key = None -> Store_Get s key now = ("", false, []).
Proof. intros Hlook. unfold Store_Get. now rewrite Hlook. Qed.

(** [Set] always stores an entry under the key, whatever was there. *)
Lemma Store_Set_lookup (s : Store) (key val : string) (px now : Z) :
  exists item,
    data (Store_Set s key val px now) !! key = Some item /\
    value item = val /\ hasExpiry item = (0 <? px).
Proof.
  unfold Store_Set. cbn [data].
  eexists. rewrite lookup_insert_eq. split; [reflexivity|]. cbn. tauto.
Qed.

(** [Set] leaves every other key as it was. *)
Lemma Store_Set_other (s : Store) (key key' val : string) (px now : Z) :
  key <> key' ->
  data (Store_Set s key val px now) !! key' = data s !! key'.
Proof.
  intros Hne. unfold Store_Set. cbn [data]. now rewrite lookup_insert_ne.
Qed.

(** A non-positive TTL stores an entry without expiry. *)
Lemma Store_Set_no_ttl (s : Store) (key val : string) (px now : Z) :
  px <= 0 ->
  data (Store_Set s key val px now) !! key = Some (mkItem val false Time.zero).
Proof.
  intros Hpx. unfold Store_Set. cbn [data]. rewrite lookup_insert_eq.
  assert (H0 : (0 <? px) = false) by now apply Z.ltb_ge.
  now rewrite H0.
Qed.

(** A positive TTL whose nanoseconds fit 64 bits stores the expiry
    [now + px ms]. *)
Lemma Store_Set_ttl_in_range (s : Store) (key val : string) (px now : Z) :
  0 < px <= 9223372036854 ->
  data (Store_Set s key val px now) !! key =
    Some (mkItem val true (now + px * Time.Millisecond)).
Proof.
  intros Hpx. unfold Store_Set. cbn [data]. rewrite lookup_insert_eq.
  assert (H0 : (0 <? px) = true) by (apply Z.ltb_lt; lia).
  rewrite H0. unfold Time.Add. rewrite ofMillis_exact by lia. reflexivity.
Qed.

(** C1, as amended: for an entry with an expiry, [Get] and [getAllKeys]
    compare the one instant [now] they sample with [expiresAt] by a strict
    "after": the entry is expired if and only if [expiresAt < now].  At
    the boundary [now = expiresAt] the entry is not expired: [Get] returns
    its value and the scan lists its key. *)
Theorem expired_iff_strictly_after (s : Store) (key : string)
    (item : StoreItem) (now : Z) :
  data s !! key = Some item ->
  hasExpiry item = true ->
  (isExpired item now = true <-> expiresAt item < now) /\
  (Store_Get s key now = ("", false, [key]) <-> expiresAt item < now) /\
  (Store_Get s key now = (value item, true, []) <-> now <= expiresAt item) /\
  (key ∈ (getAllKeys s now).1 <-> now <= expiresAt item) /\
  (now = expiresAt item ->
   Store_Get s key now = (value item, true, []) /\
   key ∈ (getAllKeys s now).1).
Proof.
  intros Hlook Hexp.
  assert (Hiff : isExpired item now = true <-> expiresAt item < now).
  { rewrite isExpired_spec. tauto. }
  assert (Hkeys : key ∈ (getAllKeys s now).1 <-> now <= expiresAt item).
  { rewrite elem_of_getAllKeys. split.
    - intros [item' [Hlook' Hlive]].
      rewrite Hlook in Hlook'. injection Hlook' as <-.
      apply isExpired_false in Hlive. destruct Hlive; [congruence|lia].
    - intros Hle. exists item. split; [exact Hlook|].
      apply isExpired_false. now right. }
  assert (Hcase : (isExpired item now = true /\ expiresAt item < now) \/
                  (isExpired item now = false /\ now <= expiresAt item)).
  { destruct (isExpired item now) eqn:Hx.
    - left. split; [reflexivity|]. now apply Hiff.
    - right. split; [reflexivity|].
      apply isExpired_false in Hx. destruct Hx; [congruence|lia]. }
  rewrite (Store_Get_present _ _ _ _ Hlook).
  split; [exact Hiff|].
  split; [|split; [|split; [exact Hkeys|]]].
  - destruct Hcase as [[-> Hlt]|[-> Hle]].
    + tauto.
    + split; [discriminate|lia].
  - destruct Hcase as [[-> Hlt]|[-> Hle]].
    + split; [discriminate|lia].
    + tauto.
  - intros ->. destruct Hcase as [[_ Hlt]|[-> Hle]]; [lia|].
    split; [reflexivity|]. apply Hkeys. lia.
Qed.

Lemma expired_iff_strictly_after_witness :
  Store_Get storeWithTtl "k" 5000096 = ("", false, ["k"]) <->
  5000095 < 5000096.
Proof.
  apply (expired_iff_strictly_after storeWithTtl "k"
           (mkItem "v" true 5000095) 5000096);
    vm_compute; reflexivity.
Defined.

(** C1, as stated, fails at the boundary: the entry of "k" expires at the
    instant 5000095, and at exactly that instant the entry is not expired,
    [Get] returns its value and [getAllKeys] lists it. *)
Lemma boundary_is_not_expired :
  data storeWithTtl !! "k" = Some (mkItem "v" true 5000095) /\
  isExpired (mkItem "v" true 5000095) 5000095 = false /\
  Store_Get storeWithTtl "k" 5000095 = ("v", true, []) /\
  getAllKeys storeWithTtl 5000095 = (["k"], []).
Proof. vm_compute. repeat split; reflexivity. Qed.

(** C6 at a TTL whose nanoseconds do not fit 64 bits: the product
    [time.Duration(px) * time.Millisecond] wraps to a negative duration,
    the entry written at instant 0 expires some 292 years before, and a
    read at the same instant finds the key expired. *)
Theorem Set_large_ttl_wraps :
  data (Store_Set emptyStore "k" "v" 9223372036855 0) !! "k" =
    Some (mkItem "v" true (-9223372036854551616)) /\
  Store_Get (Store_Set emptyStore "k" "v" 9223372036855 0) "k" 0 =
    ("", false, ["k"]).
Proof. vm_compute. split; reflexivity. Qed.

End StoreProps.


(** ** The command dispatcher *)

Module DispatchProps.

Section WithRuntime.
Context `{GoRuntime}.

(** The keys [Get] schedules for removal are expired entries of the map. *)
Lemma Store_Get_scheduled (s : Store) (key k : string) (now : Z) :
  k ∈ (Store_Get s key now).2 ->
  exists item, data s !! k = Some item /\ isExpired item now = true.
Proof.
  unfold Store_Get. destruct (data s !! key) as [item|] eqn:Hlook; cbn.
  - destruct (isExpired item now) eqn:Hx; cbn.
    + intros Hk. apply list_elem_of_singleton in Hk. subst k. eauto.
    + intros Hk. now apply not_elem_of_nil in Hk.
  - intros Hk. now apply not_elem_of_nil in Hk.
Qed.

Lemma Store_Get_exists (s : Store) (key : string) (now : Z) :
  Store_Get s key now =
    match data s !! key with
    | Some item =>
        if isExpired item now then ("", false, [key])
        else (value item, true, [])
    | None => ("", false, [])
    end.
Proof. reflexivity. Qed.

(** An empty argument list is skipped by the guard of line 165. *)
Lemma dispatch_nil (config : Config) (s : Store) (now : Z) (wok : bool) :
  dispatch config [] s now wok = mkEffect [] s [] Continue.
Proof. reflexivity. Qed.

(** What a GET of arity 2 does. *)
Lemma dispatch_get (config : Config) (name key : string) (s : Store)
    (now : Z) (wok : bool) :
  ToUpper name = "GET" ->
  dispatch config [name; key] s now wok =
    checked wok
      (if (Store_Get s key now).1.2 then bulk (Store_Get s key now).1.1
       else "$-1" ++ CRLF)
      s (Store_Get s key now).2.
Proof.
  intros Hname. unfold dispatch. rewrite Hname. cbn.
  destruct (Store_Get s key now) as [[val ex] sched]. cbn.
  now destruct ex.
Qed.

(** What a SET without the PX option does. *)
Lemma dispatch_set_plain (config : Config) (name key val : string)
    (opts : list string) (s : Store) (now : Z) (wok : bool) :
  ToUpper name = "SET" ->
  match opts with
  | [] => True
  | opt :: _ => ToUpper opt <> "PX"
  end ->
  dispatch config (name :: key :: val :: opts) s now wok =
    checked wok ("+OK" ++ CRLF) (Store_Set s key val 0 now) [].
Proof.
  intros Hname Hopts. unfold dispatch. rewrite Hname. cbn.
  destruct opts as [|opt more]; [reflexivity|].
  apply String.eqb_neq in Hopts. now rewrite Hopts.
Qed.

End WithRuntime.

(** C3, as stated, fails for a frame whose element count is 0: the decoder
    hands the empty argument list to the dispatcher, which writes no reply;
    the connection that sends only this frame is closed with nothing
    written. *)
Lemma empty_frame_gets_no_reply :
  @decodeFrame amd64 (line "*0") = Frame [] "" /\
  written (@dispatch amd64 sampleConfig [] emptyStore 0 true) = [] /\
  replies (@handleRequest amd64 sampleConfig (fun _ => 0) (fun _ => true)
             (line "*0") emptyStore) = [] /\
  ending (@handleRequest amd64 sampleConfig (fun _ => 0) (fun _ => true)
            (line "*0") emptyStore) = Closed.
Proof. vm_compute. repeat split; reflexivity. Qed.

(** C4: SET key value without PX, then GET key on the store the SET left,
    replies with the value as a bulk string, whatever the store held before
    and whenever the two commands run.  The replies are given byte by byte:
    [+OK] and the line end for the SET; for the GET the byte [$], the
    length of the value in decimal, the line end, the bytes of the value
    unchanged, and the line end. *)
Theorem set_then_get_round_trip `{GoRuntime} (config : Config)
    (set get key val : string) (s : Store) (now1 now2 : Z) (w1 w2 : bool) :
  ToUpper set = "SET" ->
  ToUpper get = "GET" ->
  let e1 := dispatch config [set; key; val] s now1 w1 in
  written e1 = ["+OK" ++ eol] /\
  written (dispatch config [get; key] (storeAfter e1) now2 w2)
    = ["$" ++ decimalOf (String.length val) ++ eol ++ val ++ eol].
Proof.
  intros Hset Hget e1. subst e1.
  rewrite (dispatch_set_plain config set key val [] s now1 w1 Hset I).
  split; [reflexivity|].
  rewrite (dispatch_get config get key _ now2 w2 Hget).
  cbn [checked storeAfter written].
  rewrite Store_Get_exists.
  rewrite (StoreProps.Store_Set_no_ttl s key val 0 now1) by lia.
  reflexivity.
Qed.

Lemma set_then_get_round_trip_witness :
  written (@dispatch amd64 sampleConfig ["set"; "k"; "v"] emptyStore 10 true)
    = [String "+" (String "O" (String "K"
         (String "013" (String "010" EmptyString))))] /\
  written (@dispatch amd64 sampleConfig ["get"; "k"]
             (storeAfter (@dispatch amd64 sampleConfig ["set"; "k"; "v"]
                            emptyStore 10 true)) 20 true)
    = [String "$" (String "1" (String "013" (String "010"
         (String "v" (String "013" (String "010" EmptyString))))))].
Proof.
  apply (@set_then_get_round_trip amd64 sampleConfig "set" "get" "k" "v"
           emptyStore 10 20 true true); reflexivity.
Defined.

(** The same round trip through the handler: one connection sends the two
    frames and receives the two replies. *)
Example set_then_get_on_one_connection :
  replies (@handleRequest amd64 sampleConfig (fun _ => 0) (fun _ => true)
             (frameOf ["SET"; "key"; "some value"] ++ frameOf ["GET"; "key"])
             emptyStore)
    = ["+OK" ++ eol; "$10" ++ eol ++ "some value" ++ eol].
Proof. vm_compute. reflexivity. Qed.



End DispatchProps.


(** ** The frame decoder and the connection handler *)

Module DecoderProps.

Lemma substring_length_le (s : string) (n m : nat) :
  (String.length (substring n m s) <= m)%nat.
Proof.
  revert n m. induction s as [|c s IH]; intros n m.
  - destruct n, m; cbn; lia.
  - destruct n as [|n].
    + destruct m as [|m]; cbn; [lia|]. specialize (IH 0%nat m). lia.
    + cbn. apply IH.
Qed.

(** A line that [ReadString] returns is not empty, and it and the rest
    make up the input. *)
Lemma ReadString_length (input line rest : string) :
  ReadString input = Some (line, rest) ->
  String.length input = (String.length line + String.length rest)%nat /\
  (0 < String.length line)%nat.
Proof.
  revert line rest. induction input as [|c input IH]; intros line rest; cbn.
  - discriminate.
  - destruct (Ascii.eqb c LF).
    + intros [= <- <-]. cbn. lia.
    + destruct (ReadString input) as [[l r]|]; [|discriminate].
      intros [= <- <-]. destruct (IH l r eq_refl). cbn. lia.
Qed.

Lemma ReadFull_length (n : Z) (input bulkData rest : string) :
  ReadFull n input = Some (bulkData, rest) ->
  (String.length rest <= String.length input)%nat.
Proof.
  unfold ReadFull.
  destruct (Z.of_nat (String.length input) <? n); [discriminate|].
  intros [= _ <-].
  pose proof (substring_length_le input (Z.to_nat n)
                (String.length input - Z.to_nat n)). lia.
Qed.

(** [ReadFull] fails exactly on a short read. *)
Lemma ReadFull_short (n : Z) (input : string) :
  ReadFull n input = None <-> Z.of_nat (String.length input) < n.
Proof.
  unfold ReadFull.
  destruct (Z.of_nat (String.length input) <? n) eqn:Hlt.
  - apply Z.ltb_lt in Hlt. tauto.
  - apply Z.ltb_ge in Hlt. split; [discriminate|lia].
Qed.

Lemma Atoi_range (s : string) (v : Z) :
  Atoi s = Some v -> minInt64 <= v <= maxInt64.
Proof.
  unfold Atoi. destruct s as [|c s]; [discriminate|].
  destruct (if (Ascii.eqb c "-" || Ascii.eqb c "+")%bool
            then s else String c s);
    [discriminate|].
  destruct (parseDigits _ 0) as [n|]; [|discriminate].
  destruct (inInt64 _) eqn:Hin; [|discriminate].
  intros [= <-]. now apply inInt64_spec.
Qed.

Section WithRuntime.
Context `{GoRuntime}.

(** With more fuel than bytes the loop over the elements never runs out of
    fuel, and a frame leaves no more input than there was. *)
Lemma readElements_fuel (fuel : nat) :
  forall (i arrayLen : Z) (elements : list string) (input : string),
    (String.length input < fuel)%nat ->
    readElements fuel i arrayLen elements input <> NoFuel /\
    (forall els rest,
       readElements fuel i arrayLen elements input = Frame els rest ->
       (String.length rest <= String.length input)%nat).
Proof.
  induction fuel as [|fuel IH]; intros i arrayLen elements input Hfuel;
    [lia|].
  cbn [readElements].
  destruct (i <? arrayLen).
  2:{ split; [discriminate|]. intros els rest [= _ <-]. lia. }
  destruct (ReadString input) as [[bulkLen rest]|] eqn:Hline.
  2:{ split; [discriminate|]. intros; discriminate. }
  apply ReadString_length in Hline. destruct Hline as [Hlen Hpos].
  destruct (negb (HasPrefix bulkLen "$")).
  { split; [discriminate|]. intros; discriminate. }
  destruct (Atoi _) as [length|].
  2:{ split; [discriminate|]. intros; discriminate. }
  destruct (negb (makeOK 1 (wrap64 (length + 2)))).
  { split; [discriminate|]. intros; discriminate. }
  destruct (ReadFull _ rest) as [[bulkData rest']|] eqn:Hfull.
  2:{ split; [discriminate|]. intros; discriminate. }
  apply ReadFull_length in Hfull.
  destruct (length <? 0).
  { split; [discriminate|]. intros; discriminate. }
  destruct (IH (wrap64 (i + 1)) arrayLen
               (elements ++ [substring 0 (Z.to_nat length) bulkData])%list
               rest')
    as [Hne Hrest]; [lia|].
  split; [exact Hne|].
  intros els r Hframe. specialize (Hrest els r Hframe). lia.
Qed.

(** The decoder is a total function of the stream: the fuel it gives the
    loop is enough. *)
Lemma decodeFrame_total (input : string) : decodeFrame input <> NoFuel.
Proof.
  unfold decodeFrame.
  destruct (ReadString input) as [[firstLine rest]|]; [|discriminate].
  destruct (negb (HasPrefix firstLine "*")); [discriminate|].
  destruct (Atoi _) as [arrayLen|]; [|discriminate].
  destruct (negb (makeOK 16 arrayLen)); [discriminate|].
  apply readElements_fuel. lia.
Qed.

(** A decoded frame has consumed at least one byte. *)
Lemma decodeFrame_consumes (input rest : string) (elements : list string) :
  decodeFrame input = Frame elements rest ->
  (String.length rest < String.length input)%nat.
Proof.
  unfold decodeFrame.
  destruct (ReadString input) as [[firstLine rest0]|] eqn:Hline;
    [|discriminate].
  apply ReadString_length in Hline. destruct Hline as [Hlen Hpos].
  destruct (negb (HasPrefix firstLine "*")); [discriminate|].
  destruct (Atoi _) as [arrayLen|]; [|discriminate].
  destruct (negb (makeOK 16 arrayLen)); [discriminate|].
  intros Hframe.
  destruct (readElements_fuel (S (String.length rest0)) 0 arrayLen [] rest0)
    as [_ Hrest]; [lia|].
  specialize (Hrest elements rest Hframe). lia.
Qed.

(** The handler returns on every finite stream: with more fuel than bytes
    its loop ends by closing the connection or by a panic. *)
Lemma handleLoop_total (config : Config) (clock : nat -> Z)
    (writes : nat -> bool) (fuel : nat) :
  forall (n : nat) (input : string) (s : Store) (out sched : list string),
    (String.length input < fuel)%nat ->
    ending (handleLoop config clock writes fuel n input s out sched)
      <> Exhausted.
Proof.
  induction fuel as [|fuel IH]; intros n input s out sched Hfuel; [lia|].
  cbn [handleLoop].
  pose proof (decodeFrame_total input) as Htotal.
  pose proof (decodeFrame_consumes input) as Hcons.
  destruct (decodeFrame input) as [elements rest| | |];
    cbn; try discriminate; [|congruence].
  specialize (Hcons rest elements eq_refl).
  destruct (next _); cbn; [|discriminate].
  apply IH. lia.
Qed.

Lemma handleRequest_total (config : Config) (clock : nat -> Z)
    (writes : nat -> bool) (input : string) (s : Store) :
  ending (handleRequest config clock writes input s) <> Exhausted.
Proof. unfold handleRequest. apply handleLoop_total. lia. Qed.

(** A pass whose frame decoding stops closes the connection and writes
    nothing more. *)
Lemma handleLoop_stop (config : Config) (clock : nat -> Z)
    (writes : nat -> bool) (fuel n : nat) (input : string) (s : Store)
    (out sched : list string) :
  decodeFrame input = Stop ->
  handleLoop config clock writes (S fuel) n input s out sched =
    mkRun out s sched Closed.
Proof. intros Hstop. cbn [handleLoop]. now rewrite Hstop. Qed.

(** A pass whose frame decoding panics ends the process. *)
Lemma handleLoop_panic (config : Config) (clock : nat -> Z)
    (writes : nat -> bool) (fuel n : nat) (input : string) (s : Store)
    (out sched : list string) :
  decodeFrame input = Panic ->
  handleLoop config clock writes (S fuel) n input s out sched =
    mkRun out s sched Crashed.
Proof. intros Hpanic. cbn [handleLoop]. now rewrite Hpanic. Qed.

(** A short read in the body of an element whose buffer the runtime can
    allocate: the loop over the elements stops, at whatever element of the
    frame it happens. *)
Lemma readElements_short_read (fuel : nat) (i arrayLen : Z)
    (elements : list string) (input bulkLen rest : string) (length : Z) :
  i < arrayLen ->
  ReadString input = Some (bulkLen, rest) ->
  HasPrefix bulkLen "$" = true ->
  Atoi (TrimSuffix (tail1 bulkLen) CRLF) = Some length ->
  -2 <= length <= maxInt64 - 2 ->
  length + 2 <= maxAlloc ->
  Z.of_nat (String.length rest) < length + 2 ->
  readElements (S fuel) i arrayLen elements input = Stop.
Proof.
  intros Hi Hline Hprefix Hatoi Hrange Halloc Hshort.
  cbn [readElements].
  assert (Hlt : (i <? arrayLen) = true) by now apply Z.ltb_lt.
  rewrite Hlt, Hline, Hprefix. cbn [negb]. rewrite Hatoi.
  assert (Hwrap : wrap64 (length + 2) = length + 2).
  { apply wrap64_id. unfold minInt64, maxInt64 in *. lia. }
  rewrite Hwrap.
  assert (Hmake : makeOK 1 (length + 2) = true).
  { unfold makeOK. apply andb_true_iff. split; apply Z.leb_le; lia. }
  rewrite Hmake. cbn [negb].
  assert (Hfull : ReadFull (length + 2) rest = None)
    by now apply ReadFull_short.
  now rewrite Hfull.
Qed.

(** A sum that exceeds the 64-bit range by at most 2^64 wraps to a negative
    number. *)
Lemma wrap64_overflow (z : Z) :
  maxInt64 < z <= maxInt64 + 2 ^ 63 -> wrap64 z = z - 2 ^ 64 /\ wrap64 z < 0.
Proof.
  unfold wrap64, maxInt64. intros Hz.
  replace (z + 2 ^ 63) with (z + 2 ^ 63 - 2 ^ 64 + 1 * 2 ^ 64) by lia.
  rewrite Z_mod_plus_full. rewrite Z.mod_small by lia. lia.
Qed.

(** The buffer of an element whose declared length is [L]: when [make]
    returns, its size [L + 2] did not wrap. *)
Lemma makeOK_size (bulkLen : string) (L : Z) :
  Atoi bulkLen = Some L ->
  makeOK 1 (wrap64 (L + 2)) = true ->
  wrap64 (L + 2) = L + 2.
Proof.
  intros Hatoi Hmake. apply Atoi_range in Hatoi.
  unfold makeOK in Hmake. apply andb_true_iff in Hmake.
  destruct Hmake as [Hpos _]. apply Z.leb_le in Hpos.
  destruct (Z_le_gt_dec (L + 2) maxInt64) as [Hfit|Hover].
  - apply wrap64_id. unfold minInt64, maxInt64 in *. lia.
  - destruct (wrap64_overflow (L + 2)) as [_ Hneg];
      [unfold maxInt64 in *; lia|lia].
Qed.

(** A frame with a short read is never decoded: the loop over its elements
    returns at the short read, or panics at it or before it. *)
Lemma readElements_shortElement (arrayLen i : Z) (input : string) :
  shortElement arrayLen i input ->
  0 <= i ->
  arrayLen <= maxInt64 ->
  forall (fuel : nat) (elements : list string),
    (String.length input < fuel)%nat ->
    readElements fuel i arrayLen elements input = Stop \/
    readElements fuel i arrayLen elements input = Panic.
Proof.
  intros Hshort.
  induction Hshort as
    [i input bulkLen rest L Hi Hline Hprefix Hatoi Hfew
    |i input bulkLen rest L body rest' Hi Hline Hprefix Hatoi Hfull _ IH];
    intros Hpos Hmax fuel elements Hfuel;
    (destruct fuel as [|fuel]; [lia|]);
    cbn [readElements];
    apply Z.ltb_lt in Hi; rewrite Hi, Hline, Hprefix; cbn [negb];
    rewrite Hatoi;
    (destruct (makeOK 1 (wrap64 (L + 2))) eqn:Hmake; cbn [negb];
     [|now right]);
    rewrite (makeOK_size _ L Hatoi Hmake).
  - apply ReadFull_short in Hfew. rewrite Hfew. now left.
  - rewrite Hfull.
    destruct (L <? 0); [now right|].
    apply Z.ltb_lt in Hi.
    rewrite (wrap64_id (i + 1)) by (unfold minInt64, maxInt64 in *; lia).
    apply ReadString_length in Hline. apply ReadFull_length in Hfull.
    apply IH; lia.
Qed.

Lemma decodeFrame_shortFrame (input : string) :
  shortFrame input -> decodeFrame input = Stop \/ decodeFrame input = Panic.
Proof.
  intros (firstLine & rest & arrayLen & Hline & Hprefix & Hatoi & Hshort).
  unfold decodeFrame. rewrite Hline, Hprefix. cbn [negb]. rewrite Hatoi.
  destruct (makeOK 16 arrayLen); cbn [negb]; [|now right].
  apply Atoi_range in Hatoi.
  apply (readElements_shortElement arrayLen 0 rest Hshort); lia.
Qed.

End WithRuntime.

(** C8: a stream that has a short read in a frame (an element declares a
    length [L] and fewer than [L + 2] bytes follow) never yields that frame:
    decoding returns or panics, at whatever pass of the loop the frame
    arrives.  The pass is the last one; nothing is written after what the
    earlier commands wrote, the store and the scheduled removals are as the
    earlier commands left them, and the connection is closed.  On a
    connection whose first frame has the short read nothing is written at
    all. *)
Theorem short_read_closes_the_connection `{GoRuntime} (config : Config)
    (clock : nat -> Z) (writes : nat -> bool) (fuel n : nat) (input : string)
    (s : Store) (out sched : list string) :
  shortFrame input ->
  (decodeFrame input = Stop \/ decodeFrame input = Panic) /\
  (let r := handleLoop config clock writes (S fuel) n input s out sched in
   replies r = out /\ finalStore r = s /\ removals r = sched /\
   connectionClosed (ending r)) /\
  (let r := handleRequest config clock writes input s in
   replies r = [] /\ finalStore r = s /\ removals r = [] /\
   connectionClosed (ending r)).
Proof.
  intros Hshort.
  pose proof (decodeFrame_shortFrame input Hshort) as Hdecode.
  split; [exact Hdecode|].
  unfold handleRequest, connectionClosed.
  destruct Hdecode as [Hstop|Hpanic].
  - rewrite !(handleLoop_stop _ _ _ _ _ _ _ _ _ Hstop). cbn. tauto.
  - rewrite !(handleLoop_panic _ _ _ _ _ _ _ _ _ Hpanic). cbn. tauto.
Qed.

Lemma short_read_closes_the_connection_witness :
  replies (@handleRequest amd64 sampleConfig (fun _ => 0) (fun _ => true)
             (line "*2" ++ line "$4" ++ line "ECHO" ++ line "$5" ++ "abc")
             emptyStore) = [] /\
  connectionClosed
    (ending (@handleRequest amd64 sampleConfig (fun _ => 0) (fun _ => true)
               (line "*2" ++ line "$4" ++ line "ECHO" ++ line "$5" ++ "abc")
               emptyStore)).
Proof.
  assert (Hshort : shortFrame
            (line "*2" ++ line "$4" ++ line "ECHO" ++ line "$5" ++ "abc")).
  { exists (line "*2"), (line "$4" ++ line "ECHO" ++ line "$5" ++ "abc"), 2.
    split; [reflexivity|]. split; [reflexivity|]. split; [reflexivity|].
    apply (shortLater 2 0 _ (line "$4") (line "ECHO" ++ line "$5" ++ "abc")
             4 (line "ECHO") (line "$5" ++ "abc"));
      [lia|reflexivity|reflexivity|reflexivity|reflexivity|].
    apply (shortHere 2 (0 + 1) _ (line "$5") "abc" 5);
      [lia|reflexivity|reflexivity|reflexivity|vm_compute; reflexivity]. }
  destruct (@short_read_closes_the_connection amd64 sampleConfig
              (fun _ => 0) (fun _ => true) 0%nat 0%nat _ emptyStore [] []
              Hshort)
    as (_ & _ & Hreplies & _ & _ & Hclosed).
  split; [exact Hreplies|exact Hclosed].
Defined.

(** The same at a declared length whose buffer cannot be allocated: the
    frame announces one element of 9223372036854775807 bytes and sends none
    of them.  [length+2] wraps to a negative number and [make] panics
    before anything is read or written. *)
Lemma short_read_with_huge_length_panics :
  Atoi "9223372036854775807" = Some maxInt64 /\
  wrap64 (maxInt64 + 2) = -9223372036854775807 /\
  @decodeFrame amd64 (line "*1" ++ line "$9223372036854775807") = Panic /\
  (let r := @handleRequest amd64 sampleConfig (fun _ => 0) (fun _ => true)
              (line "*1" ++ line "$9223372036854775807") emptyStore in
   replies r = [] /\ ending r = Crashed).
Proof. vm_compute. repeat split; reflexivity. Qed.

(** A short read with a moderate declared length, in the second element of
    a frame that follows a complete PING: the PING is answered, the short
    frame gets no reply, and the connection is closed. *)
Lemma short_read_closes_without_reply :
  @decodeFrame amd64 (line "*2" ++ line "$4" ++ line "ECHO" ++ line "$5"
                        ++ "abc") = Stop /\
  (let r := @handleRequest amd64 sampleConfig (fun _ => 0) (fun _ => true)
              (frameOf ["PING"] ++ line "*2" ++ line "$4" ++ line "ECHO"
                 ++ line "$5" ++ "abc") emptyStore in
   replies r = ["+PONG" ++ CRLF] /\ ending r = Closed).
Proof. vm_compute. repeat split; reflexivity. Qed.

(** C10 at negative declared lengths: each of these streams makes the
    decoder panic, in [make] for an element length of -3 and for an element
    count of -1, and in the slice expression [bulkData[:length]] for the
    element lengths -2 and -1; the handler ends by the panic. *)
Theorem negative_length_panics :
  @decodeFrame amd64 (line "*1" ++ line "$-3") = Panic /\
  @decodeFrame amd64 (line "*1" ++ line "$-2") = Panic /\
  @decodeFrame amd64 (line "*1" ++ line "$-1" ++ "x") = Panic /\
  @decodeFrame amd64 (line "*-1") = Panic /\
  ending (@handleRequest amd64 sampleConfig (fun _ => 0) (fun _ => true)
            (line "*1" ++ line "$-3") emptyStore) = Crashed.
Proof. vm_compute. repeat split; reflexivity. Qed.

End DecoderProps.


(** ** The snapshot reader *)

Module RdbProps.
Import Rdb.

(** The pass of the outer loop that handles a database selector goes on
    from the file offset where the loop over the records stopped, with the
    records it collected: the byte [b] that stopped it is not looked at
    again, the next pass reads the byte after it. *)
Lemma readOpcodes_after_database `{GoRuntime} (fuel : nat)
    (pairs pairs' : list KeyValue) (f f1 f' : File) (b : byte) :
  readByte f = Ok (Some DatabaseStart) f1 ->
  readDatabase fuel pairs f1 = Ok (pairs', b) f' ->
  readOpcodes (S fuel) pairs f = readOpcodes fuel pairs' f'.
Proof.
  intros Hbyte Hdb. cbn [readOpcodes]. unfold bind at 1. rewrite Hbyte.
  cbn [Byte.eqb].
  change (Byte.eqb DatabaseStart MetadataStart) with false.
  change (Byte.eqb DatabaseStart DatabaseStart) with true.
  cbv iota. unfold bind at 1. rewrite Hdb. reflexivity.
Qed.

(** The loop over the records stops on a database selector and on an end
    marker without reading anything, and returns that byte. *)
Lemma readRecords_stops `{GoRuntime} (fuel : nat) (opcode : byte)
    (pairs : list KeyValue) (f : File) :
  opcode = DatabaseStart \/ opcode = EOF ->
  readRecords fuel opcode pairs f = Ok (pairs, opcode) f.
Proof. intros [-> | ->]; destruct fuel; reflexivity. Qed.

(** C2 on two files.  In the first, the end marker after the record
    "a" -> "b" is followed by one more byte (a snapshot file carries a
    checksum there): the loop over the records stops on the marker, the
    outer loop reads the byte after it as an opcode and fails, where the
    claim has the marker end the parse with the record.  In the second, a
    selector of database 1 follows the record: the outer loop reads the
    first byte of the database index as an opcode and fails, where the claim
    has a new database section start.  The last two lines show the
    parse succeed on files that end right after the byte that stopped the
    records, whichever of the two opcodes it is. *)
Theorem stopping_opcode_is_not_dispatched :
  @Read amd64 100
    (IsFile (Samples.header ++ Samples.db0 ++ Samples.recordAB
               ++ [Byte.xff; Byte.x00]))
    = Failed (UnsupportedOpcode Byte.x00) /\
  @Read amd64 100
    (IsFile (Samples.header ++ Samples.db0 ++ Samples.recordAB
               ++ Samples.db1 ++ Samples.recordAB ++ [Byte.xff]))
    = Failed (UnsupportedOpcode Byte.x01) /\
  @Read amd64 100
    (IsFile (Samples.header ++ Samples.db0 ++ Samples.recordAB
               ++ [Byte.xff]))
    = Pairs [Samples.pairAB] /\
  @Read amd64 100
    (IsFile (Samples.header ++ Samples.db0 ++ Samples.recordAB
               ++ [Byte.xfe]))
    = Pairs [Samples.pairAB].
Proof. vm_compute. repeat split; reflexivity. Qed.

(** C9: when the snapshot file does not exist, [Read] returns no record and
    no error, the startup code writes nothing, and the server goes on to
    listen with the empty store. *)
Theorem missing_file_loads_nothing `{GoRuntime} (fuel : nat)
    (clock : nat -> Z) :
  Read fuel NotExist = Pairs [] /\
  startup fuel clock NotExist = Some emptyStore.
Proof. split; reflexivity. Qed.

End RdbProps.

(** ** Loading the records into the store *)

Module LoadProps.
Import Rdb.

(** The test [px <= 0] of line 87 skips a record exactly when its expiry is
    less than one millisecond after the instant [time.Until] samples. *)
Lemma skip_iff (expires now : Z) :
  Time.Milliseconds (Time.Until expires now) <= 0 <->
  expires < now + Time.Millisecond.
Proof.
  unfold Time.Milliseconds, Time.Until, Time.Sub, Time.Millisecond,
    minInt64, maxInt64.
  destruct (expires - now <? - 2 ^ 63) eqn:Hlo.
  - apply Z.ltb_lt in Hlo. split; [lia|]. intros _. now vm_compute.
  - apply Z.ltb_ge in Hlo.
    destruct (2 ^ 63 - 1 <? expires - now) eqn:Hhi.
    + apply Z.ltb_lt in Hhi. split; [|lia]. vm_compute. intros Habs.
      exfalso. now apply Habs.
    + apply Z.ltb_ge in Hhi.
      pose proof (Z.quot_rem' (expires - now) 1000000) as Hqr.
      destruct (Z_lt_le_dec (expires - now) 0) as [Hneg|Hpos].
      * assert (Hq : (expires - now) ÷ 1000000 <= 0).
        { replace (expires - now) with (- (now - expires)) by lia.
          rewrite Z.quot_opp_l by lia.
          pose proof (Z.quot_pos (now - expires) 1000000). lia. }
        lia.
      * pose proof (Z.rem_bound_pos (expires - now) 1000000) as Hr. lia.
Qed.


Section Loop.
Variable clock : nat -> Z.

(** Records that are skipped, and records of other keys, leave the entry of
    a key as it is. *)
Lemma loadPairs_untouched (k : string) (pairs : list KeyValue) :
  forall (tick : nat) (s : Store),
    (forall kv, kv ∈ pairs -> Key kv = k -> alwaysSkipped clock kv) ->
    data (loadPairs clock tick pairs s) !! k = data s !! k.
Proof.
  induction pairs as [|kv rest IH]; intros tick s Hskip; [reflexivity|].
  assert (Hrest : forall kv', kv' ∈ rest -> Key kv' = k ->
                  alwaysSkipped clock kv').
  { intros kv' Hin. apply Hskip. now apply list_elem_of_further. }
  cbn [loadPairs].
  destruct (string_dec (Key kv) k) as [Hk|Hk].
  - destruct (Hskip kv (list_elem_of_here _ _) Hk) as [Hexp Hpast].
    rewrite Hexp.
    assert (Hle : (Time.Milliseconds (Time.Until (ExpiresAt kv) (clock tick))
                   <=? 0) = true).
    { apply Z.leb_le, skip_iff, Hpast. }
    rewrite Hle. now apply IH.
  - destruct (HasExpiry kv).
    + destruct (_ <=? 0); [now apply IH|].
      rewrite IH by exact Hrest. now apply StoreProps.Store_Set_other.
    + rewrite IH by exact Hrest. now apply StoreProps.Store_Set_other.
Qed.

(** The loop over a prefix of the records ends in some state from which
    the loop over the rest goes on. *)
Lemma loadPairs_app (before : list KeyValue) :
  forall (tick : nat) (s : Store),
  exists tick' s', forall after,
    loadPairs clock tick (before ++ after) s = loadPairs clock tick' after s'.
Proof.
  induction before as [|kv before IH]; intros tick s.
  - now exists tick, s.
  - cbn [app loadPairs].
    destruct (HasExpiry kv).
    + destruct (_ <=? 0).
      * apply IH.
      * apply IH.
    + apply IH.
Qed.

End Loop.






End LoadProps.


Module FrameProps.

Lemma append_cons (x : ascii) (a b : string) :
  String x a ++ b = String x (a ++ b).
Proof. reflexivity. Qed.

Lemma append_nil_l (b : string) : "" ++ b = b.
Proof. reflexivity. Qed.

Lemma append_assoc (a b c : string) : (a ++ b) ++ c = a ++ (b ++ c).
Proof.
  induction a as [|x a IH]; [reflexivity|].
  rewrite !append_cons. now rewrite IH.
Qed.

Lemma append_nil_r (a : string) : a ++ "" = a.
Proof.
  induction a as [|x a IH]; [reflexivity|].
  rewrite append_cons. now rewrite IH.
Qed.

Lemma length_append (a b : string) :
  String.length (a ++ b) = (String.length a + String.length b)%nat.
Proof.
  induction a as [|x a IH]; [reflexivity|].
  rewrite append_cons. cbn [String.length]. now rewrite IH.
Qed.

Lemma substring_all (s : string) : substring 0 (String.length s) s = s.
Proof.
  induction s as [|x s IH]; [reflexivity|].
  cbn [String.length substring]. now rewrite IH.
Qed.

Lemma substring_prefix (a b : string) :
  substring 0 (String.length a) (a ++ b) = a.
Proof.
  induction a as [|x a IH].
  - rewrite append_nil_l. destruct b; reflexivity.
  - rewrite append_cons. cbn [String.length substring]. now rewrite IH.
Qed.

Lemma substring_skip (a b : string) (n m : nat) :
  substring (String.length a + n) m (a ++ b) = substring n m b.
Proof.
  induction a as [|x a IH]; [reflexivity|].
  rewrite append_cons. cbn [String.length Nat.add substring]. exact IH.
Qed.

Lemma HasPrefix_cons (c : ascii) (s : string) :
  HasPrefix (String c s) (String c "") = true.
Proof.
  unfold HasPrefix. cbn [String.prefix].
  destruct (ascii_dec c c) as [_|Hne]; [|congruence].
  destruct s; reflexivity.
Qed.

(** [TrimSuffix] removes the line ending the decoder expects. *)
Lemma TrimSuffix_line (s : string) : TrimSuffix (s ++ CRLF) CRLF = s.
Proof.
  unfold TrimSuffix, HasSuffix. rewrite length_append.
  change (String.length CRLF) with 2%nat.
  replace (String.length s + 2 - 2)%nat with (String.length s + 0)%nat by lia.
  rewrite substring_skip.
  assert (Hle : (2 <=? String.length s + 2)%nat = true)
    by (apply Nat.leb_le; lia).
  rewrite Hle. cbn [andb]. change (substring 0 2 CRLF) with CRLF.
  rewrite String.eqb_refl. rewrite Nat.add_0_r. apply substring_prefix.
Qed.

(** The digits [itoa] prints are read back by the digit loop. *)
Lemma parseDigits_string_of_uint (d : Decimal.uint) :
  forall acc : nat,
    parseDigits (NilEmpty.string_of_uint d) (Z.of_nat acc) =
      Some (Z.of_nat (Nat.of_uint_acc d acc)).
Proof.
  induction d; intros acc; cbn [NilEmpty.string_of_uint parseDigits
    Nat.of_uint_acc]; [reflexivity|..];
    (match goal with
     | |- context [digitOf ?c] =>
         let r := eval vm_compute in (digitOf c) in
         change (digitOf c) with r
     end; cbv iota beta;
     rewrite <- IHd; f_equal; rewrite ?Nat2Z.inj_succ, Nat.tail_mul_spec; lia).
Qed.

Lemma parseDigits_itoa (n : nat) :
  parseDigits (itoa n) 0 = Some (Z.of_nat n).
Proof.
  unfold itoa. change 0 with (Z.of_nat 0).
  rewrite parseDigits_string_of_uint.
  change (Nat.of_uint_acc (Nat.to_uint n) 0) with (Nat.of_uint (Nat.to_uint n)).
  now rewrite Unsigned.of_to.
Qed.


(** A string of digits holds no line feed: [ReadString] reads it and the
    line ending that follows as one line. *)
Lemma ReadString_digits (s rest : string) :
  forall acc v,
    parseDigits s acc = Some v ->
    ReadString (s ++ CRLF ++ rest) = Some (s ++ CRLF, rest).
Proof.
  induction s as [|c s IH]; intros acc v Hdigits.
  - reflexivity.
  - rewrite !append_cons. cbn [ReadString].
    cbn [parseDigits] in Hdigits.
    destruct (digitOf c) as [d|] eqn:Hd; [|discriminate].
    assert (Hc : Ascii.eqb c LF = false).
    { apply Ascii.eqb_neq. intros ->. vm_compute in Hd. discriminate. }
    rewrite Hc. now rewrite (IH _ _ Hdigits).
Qed.

(** [Atoi] reads back what [itoa] prints. *)
Lemma Atoi_itoa (n : nat) :
  Z.of_nat n <= maxInt64 -> Atoi (itoa n) = Some (Z.of_nat n).
Proof.
  intros Hn. pose proof (parseDigits_itoa n) as Hdigits.
  unfold Atoi. destruct (itoa n) as [|c s] eqn:Hs.
  - cbn in Hdigits. injection Hdigits as Hz.
    assert (n = 0%nat) by lia. subst n. vm_compute in Hs. discriminate.
  - assert (Hc : exists d, digitOf c = Some d).
    { cbn [parseDigits] in Hdigits.
      destruct (digitOf c); [eauto|discriminate]. }
    destruct Hc as [d Hd].
    assert (Hminus : Ascii.eqb c "-" = false).
    { apply Ascii.eqb_neq. intros ->. vm_compute in Hd. discriminate. }
    assert (Hplus : Ascii.eqb c "+" = false).
    { apply Ascii.eqb_neq. intros ->. vm_compute in Hd. discriminate. }
    rewrite Hminus, Hplus. cbn [orb]. rewrite Hdigits.
    assert (Hin : inInt64 (Z.of_nat n) = true).
    { apply inInt64_spec. unfold minInt64. lia. }
    now rewrite Hin.
Qed.

Section WithRuntime.
Context `{GoRuntime}.

(** [ReadFull] of the body of an element and its line ending. *)
Lemma ReadFull_element (a rest : string) :
  ReadFull (Z.of_nat (String.length a) + 2) (a ++ CRLF ++ rest) =
    Some (a ++ CRLF, rest).
Proof.
  unfold ReadFull. rewrite !length_append.
  change (String.length CRLF) with 2%nat.
  assert (Hlt : (Z.of_nat (String.length a + (2 + String.length rest))
                 <? Z.of_nat (String.length a) + 2) = false)
    by (apply Z.ltb_ge; lia).
  rewrite Hlt.
  replace (Z.to_nat (Z.of_nat (String.length a) + 2))
    with (String.length (a ++ CRLF))
    by (rewrite length_append; change (String.length CRLF) with 2%nat; lia).
  rewrite <- append_assoc. rewrite substring_prefix.
  f_equal. f_equal.
  replace (String.length (a ++ CRLF)) with (String.length (a ++ CRLF) + 0)%nat
    at 1 by lia.
  rewrite substring_skip.
  replace (String.length a + (2 + String.length rest)
             - String.length (a ++ CRLF))%nat
    with (String.length rest)
    by (rewrite length_append; change (String.length CRLF) with 2%nat; lia).
  apply substring_all.
Qed.

(** The loop over the elements reads back the elements [bulkAll] wrote. *)
Lemma readElements_bulkAll (keys : list string) :
  forall (fuel : nat) (i arrayLen : Z) (acc : list string) (rest : string),
    Forall elementFits keys ->
    0 <= i ->
    arrayLen = i + Z.of_nat (List.length keys) ->
    arrayLen <= maxInt64 ->
    (List.length keys <= fuel)%nat ->
    readElements fuel i arrayLen acc (bulkAll keys ++ rest) =
      Frame (acc ++ keys)%list rest.
Proof.
  induction keys as [|key keys IH];
    intros fuel i arrayLen acc rest Hfits Hi Hlen Hmax Hfuel.
  - cbn [List.length] in Hlen.
    assert (Hge : (i <? arrayLen) = false) by (apply Z.ltb_ge; lia).
    rewrite app_nil_r. cbn [bulkAll fold_right]. rewrite append_nil_l.
    destruct fuel; cbn [readElements]; now rewrite Hge.
  - cbn [List.length] in Hlen, Hfuel.
    destruct fuel as [|fuel]; [lia|].
    inversion Hfits as [|? ? [Halloc Hint] Hfits']; subst.
    assert (Hlt : (i <? i + Z.of_nat (S (List.length keys))) = true)
      by (apply Z.ltb_lt; lia).
    cbn [readElements]. rewrite Hlt.
    cbn [bulkAll fold_right]. fold (bulkAll keys).
    unfold bulk at 1. rewrite !append_assoc. rewrite append_cons, append_nil_l.
    cbn [ReadString].
    change (Ascii.eqb "$" LF) with false. cbv iota.
    assert (Hline := ReadString_digits (itoa (String.length key))
                       (key ++ CRLF ++ bulkAll keys ++ rest) 0 _
                       (parseDigits_itoa _)).
    rewrite Hline.
    rewrite HasPrefix_cons.
    cbn [negb tail1]. rewrite TrimSuffix_line.
    rewrite Atoi_itoa by (unfold maxInt64 in *; lia).
    rewrite wrap64_id by (unfold minInt64, maxInt64 in *; lia).
    assert (Hmake : makeOK 1 (Z.of_nat (String.length key) + 2) = true).
    { unfold makeOK. apply andb_true_iff. split; apply Z.leb_le; lia. }
    rewrite Hmake. cbn [negb].
    rewrite ReadFull_element.
    assert (Hneg : (Z.of_nat (String.length key) <? 0) = false)
      by (apply Z.ltb_ge; lia).
    rewrite Hneg. rewrite Nat2Z.id, substring_prefix.
    rewrite wrap64_id by (unfold minInt64, maxInt64 in *; lia).
    rewrite (IH fuel (i + 1) _ (acc ++ [key])%list rest Hfits');
      [|lia|lia|lia|lia].
    now rewrite <- app_assoc.
Qed.

(** The reply of KEYS is the count line followed by the elements. *)
Lemma keysReply_bulkAll (keys : list string) :
  keysReply keys = "*" ++ itoa (List.length keys) ++ CRLF ++ bulkAll keys.
Proof.
  unfold keysReply.
  generalize (List.length keys). intros n.
  assert (Hfold : forall init,
            fold_left (fun response key => response ++ bulk key) keys init
            = init ++ bulkAll keys).
  { induction keys as [|key keys IH]; intros init.
    - cbn. now rewrite append_nil_r.
    - cbn [fold_left bulkAll fold_right]. rewrite IH.
      fold (bulkAll keys). now rewrite append_assoc. }
  rewrite Hfold. now rewrite !append_assoc.
Qed.

(** A request frame has the layout of the reply of KEYS. *)
Lemma frameOf_keysReply (args : list string) : frameOf args = keysReply args.
Proof.
  unfold frameOf, keysReply.
  replace (line ("*" ++ itoa (List.length args)))
    with ("*" ++ itoa (List.length args) ++ CRLF)
    by (unfold line; now rewrite append_assoc).
  generalize ("*" ++ itoa (List.length args) ++ CRLF).
  induction args as [|a args IH]; intros init; [reflexivity|].
  cbn [fold_left]. rewrite IH. f_equal.
  unfold line, bulk. now rewrite !append_assoc.
Qed.

Lemma length_bulkAll (keys : list string) :
  (List.length keys <= String.length (bulkAll keys))%nat.
Proof.
  induction keys as [|key keys IH]; [cbn; lia|].
  cbn [bulkAll fold_right List.length]. fold (bulkAll keys).
  unfold bulk. rewrite append_cons, append_nil_l. rewrite append_cons.
  cbn [String.length]. rewrite !append_assoc, !length_append. lia.
Qed.

(** The decoder reads an array of bulk strings, followed by anything, back
    as the list of the strings and what follows. *)
Lemma decodeFrame_array (keys : list string) (rest : string) :
  frameFits keys ->
  decodeFrame (keysReply keys ++ rest) = Frame keys rest.
Proof.
  intros [Halloc [Hint Hfits]].
  rewrite keysReply_bulkAll. rewrite !append_assoc.
  rewrite append_cons, append_nil_l.
  unfold decodeFrame. cbn [ReadString].
  change (Ascii.eqb "*" LF) with false. cbv iota.
  rewrite (ReadString_digits (itoa (List.length keys)) (bulkAll keys ++ rest)
             0 _ (parseDigits_itoa _)).
  rewrite HasPrefix_cons. cbn [negb tail1]. rewrite TrimSuffix_line.
  rewrite Atoi_itoa by exact Hint.
  assert (Hmake : makeOK 16 (Z.of_nat (List.length keys)) = true).
  { unfold makeOK. apply andb_true_iff. split; apply Z.leb_le; lia. }
  rewrite Hmake. cbn [negb].
  rewrite (readElements_bulkAll keys _ 0 _ [] rest Hfits); [reflexivity|..].
  - lia.
  - lia.
  - exact Hint.
  - pose proof (length_bulkAll keys). rewrite length_append. lia.
Qed.

Lemma decodeFrame_frameOf (args : list string) (rest : string) :
  frameFits args ->
  decodeFrame (frameOf args ++ rest) = Frame args rest.
Proof. rewrite frameOf_keysReply. apply decodeFrame_array. Qed.

Lemma length_frameOf (args : list string) :
  (0 < String.length (frameOf args))%nat.
Proof.
  rewrite frameOf_keysReply, keysReply_bulkAll.
  rewrite append_cons. cbn [String.length]. lia.
Qed.

(** The loop of the handler on a stream made of well-formed frames. *)
Lemma handleLoop_frames (config : Config) (clock : nat -> Z)
    (writes : nat -> bool) (frames : list (list string)) :
  forall (fuel n : nat) (s : Store) (out sched : list string),
    Forall frameFits frames ->
    (String.length (streamOf frames) < fuel)%nat ->
    handleLoop config clock writes fuel n (streamOf frames) s out sched =
      dispatchAll config clock writes n frames s out sched.
Proof.
  induction frames as [|elements more IH];
    intros fuel n s out sched Hfits Hfuel.
  - destruct fuel as [|fuel]; [lia|]. reflexivity.
  - destruct fuel as [|fuel]; [lia|].
    inversion Hfits as [|? ? Hfit Hfits']; subst.
    cbn [streamOf fold_right] in *. fold (streamOf more) in *.
    cbn [handleLoop dispatchAll].
    rewrite (decodeFrame_frameOf elements (streamOf more) Hfit).
    cbv zeta.
    destruct (next _); [|reflexivity].
    apply IH; [exact Hfits'|].
    rewrite length_append in Hfuel.
    pose proof (length_frameOf elements). lia.
Qed.

(** X2: the handler is the dispatcher run over the frames of the stream,
    one after the other.  On a connection that sends well-formed frames and
    then closes, it writes the replies of the commands in order and threads
    the store through them, and it stops early only at a command whose
    write fails. *)
Theorem handleRequest_frames (config : Config) (clock : nat -> Z)
    (writes : nat -> bool) (frames : list (list string)) (s : Store) :
  Forall frameFits frames ->
  handleRequest config clock writes (streamOf frames) s =
    dispatchAll config clock writes 0 frames s [] [].
Proof.
  intros Hfits. unfold handleRequest.
  apply handleLoop_frames; [exact Hfits|lia].
Qed.

(** What the dispatcher does with a name it does not know. *)
Lemma dispatch_unknown (config : Config) (name : string)
    (args : list string) (s : Store) (now : Z) (wok : bool) :
  ToUpper name <> "PING" -> ToUpper name <> "ECHO" ->
  ToUpper name <> "SET" -> ToUpper name <> "GET" ->
  ToUpper name <> "CONFIG" -> ToUpper name <> "KEYS" ->
  dispatch config (name :: args) s now wok =
    checked wok ("-ERR unknown command" ++ CRLF) s [].
Proof.
  intros Hping Hecho Hset Hget Hconfig Hkeys. unfold dispatch.
  apply String.eqb_neq in Hping, Hecho, Hset, Hget, Hconfig, Hkeys.
  now rewrite Hping, Hecho, Hset, Hget, Hconfig, Hkeys.
Qed.

(** X3: an unknown command gets an error reply and leaves the connection
    usable: a PING that follows it on the same connection is answered, and
    the store is as before. *)
Theorem unknown_command_then_ping (config : Config) (clock : nat -> Z)
    (writes : nat -> bool) (name ping : string) (args : list string)
    (s : Store) :
  ToUpper name <> "PING" -> ToUpper name <> "ECHO" ->
  ToUpper name <> "SET" -> ToUpper name <> "GET" ->
  ToUpper name <> "CONFIG" -> ToUpper name <> "KEYS" ->
  ToUpper ping = "PING" ->
  frameFits (name :: args) ->
  frameFits [ping] ->
  writes 0%nat = true ->
  handleRequest config clock writes (streamOf [name :: args; [ping]]) s =
    mkRun ["-ERR unknown command" ++ CRLF; "+PONG" ++ CRLF] s [] Closed.
Proof.
  intros Hping Hecho Hset Hget Hconfig Hkeys Hpong Hfit1 Hfit2 Hwrite.
  unfold handleRequest.
  rewrite handleLoop_frames;
    [|constructor; [exact Hfit1|constructor; [exact Hfit2|constructor]]|lia].
  cbn [dispatchAll].
  rewrite (dispatch_unknown config name args s _ _
             Hping Hecho Hset Hget Hconfig Hkeys).
  rewrite Hwrite. cbn [checked next written storeAfter scheduled].
  unfold dispatch. rewrite Hpong.
  change (String.eqb "PING" "PING") with true. cbv iota.
  cbn [checked next written storeAfter scheduled].
  now destruct (writes 1%nat).
Qed.

(** X1: round trip of the reply of KEYS.  The array that KEYS * writes is
    read back by the server's own frame decoder as a list of keys, and
    these are exactly the keys of the store that are not expired at the
    instant of the command. *)
Theorem keys_reply_round_trip (config : Config) (name : string) (s : Store)
    (now : Z) (wok : bool) (rest : string) :
  ToUpper name = "KEYS" ->
  frameFits (getAllKeys s now).1 ->
  exists keys,
    written (dispatch config [name; "*"] s now wok) = [keysReply keys] /\
    decodeFrame (keysReply keys ++ rest) = Frame keys rest /\
    (forall k, k ∈ keys <->
       exists item, data s !! k = Some item /\ isExpired item now = false).
Proof.
  intros Hname Hfit. exists (getAllKeys s now).1. split; [|split].
  - unfold dispatch. rewrite Hname. cbn.
    now destruct (getAllKeys s now) as [keys sched].
  - now apply decodeFrame_array.
  - intros k. apply StoreProps.elem_of_getAllKeys.
Qed.

End WithRuntime.

Lemma ReadString_head (c : ascii) (rest line rest' : string) :
  ReadString (String c rest) = Some (line, rest') ->
  exists line', line = String c line'.
Proof.
  cbn [ReadString]. destruct (Ascii.eqb c LF).
  - intros [= <- _]. eauto.
  - destruct (ReadString rest) as [[l r]|]; [|discriminate].
    intros [= <- _]. eauto.
Qed.

(** X25: a stream that does not begin with [*] is not answered.  Whatever
    the first byte is instead (an inline command such as PING, say), and
    also when the stream is empty, the handler writes nothing, leaves the
    store as it is and closes the connection. *)
Theorem non_array_stream_is_closed `{GoRuntime} (config : Config)
    (clock : nat -> Z) (writes : nat -> bool) (input : string) (s : Store) :
  HasPrefix input "*" = false ->
  handleRequest config clock writes input s = mkRun [] s [] Closed.
Proof.
  intros Hprefix. unfold handleRequest. apply DecoderProps.handleLoop_stop.
  unfold decodeFrame.
  destruct input as [|c rest]; [reflexivity|].
  destruct (ReadString (String c rest)) as [[line rest']|] eqn:Hline;
    [|reflexivity].
  destruct (ReadString_head c rest line rest' Hline) as [line' ->].
  assert (Hline' : HasPrefix (String c line') "*" = false).
  { unfold HasPrefix in *. cbn [String.prefix] in *.
    destruct (ascii_dec "*" c); [|reflexivity].
    destruct rest; discriminate. }
  now rewrite Hline'.
Qed.

Lemma non_array_stream_is_closed_witness :
  @handleRequest amd64 sampleConfig (fun _ => 0) (fun _ => true)
    (line "PING") storeWithTtl = mkRun [] storeWithTtl [] Closed.
Proof.
  apply (@non_array_stream_is_closed amd64). reflexivity.
Defined.

Lemma amd64_fits_short (args : list string) :
  (List.length args <= 1000)%nat ->
  Forall (fun a => (String.length a <= 1000)%nat) args ->
  @frameFits amd64 args.
Proof.
  intros Hn Hargs. unfold frameFits.
  change (@maxAlloc amd64) with (2 ^ 48). unfold maxInt64.
  repeat split; try lia.
  eapply Forall_impl; [exact Hargs|].
  intros a Ha. unfold elementFits.
  change (@maxAlloc amd64) with (2 ^ 48). unfold maxInt64. cbn beta in *. lia.
Qed.

Lemma keys_reply_round_trip_witness :
  exists keys,
    written (@dispatch amd64 sampleConfig ["keys"; "*"] storeWithTtl 0 true)
      = [keysReply keys] /\
    @decodeFrame amd64 (keysReply keys ++ "tail") = Frame keys "tail" /\
    (forall k, k ∈ keys <->
       exists item,
         data storeWithTtl !! k = Some item /\ isExpired item 0 = false).
Proof.
  apply (@keys_reply_round_trip amd64 sampleConfig "keys" storeWithTtl 0 true
           "tail"); [reflexivity|].
  apply amd64_fits_short; vm_compute; [lia|].
  repeat constructor; lia.
Defined.

Lemma handleRequest_frames_witness :
  @handleRequest amd64 sampleConfig (fun _ => 0) (fun _ => true)
    (streamOf [["SET"; "k"; "v"]; ["GET"; "k"]]) emptyStore =
  @dispatchAll amd64 sampleConfig (fun _ => 0) (fun _ => true) 0
    [["SET"; "k"; "v"]; ["GET"; "k"]] emptyStore [] [].
Proof.
  apply (@handleRequest_frames amd64).
  constructor; [|constructor; [|constructor]];
    (apply amd64_fits_short; [cbn; lia|repeat constructor; cbn; lia]).
Defined.

Lemma unknown_command_then_ping_witness :
  @handleRequest amd64 sampleConfig (fun _ => 0) (fun _ => true)
    (streamOf [["FOOBAR"; "x"]; ["ping"]]) storeWithTtl =
  mkRun ["-ERR unknown command" ++ CRLF; "+PONG" ++ CRLF] storeWithTtl []
        Closed.
Proof.
  apply (@unknown_command_then_ping amd64); try discriminate;
    try reflexivity;
    (apply amd64_fits_short; [cbn; lia|repeat constructor; cbn; lia]).
Defined.

End FrameProps.

(** ** More on the command dispatcher *)

Module DispatchMore.

(** Case analysis along the branches of [dispatch]. *)
Ltac dispatch_cases :=
  unfold dispatch;
  repeat
    (match goal with
     | |- context [String.eqb ?a ?b] =>
         let E := fresh "E" in destruct (String.eqb a b) eqn:E
     | |- context [match ?l with [] => _ | _ :: _ => _ end] => destruct l
     | |- context [ParseInt ?m] => destruct (ParseInt m)
     | |- context [Store_Get ?s ?k ?n] =>
         destruct (Store_Get s k n) as [[? ?] ?]
     | |- context [getAllKeys ?s ?n] => destruct (getAllKeys s n) as [? ?]
     | |- context [negb ?b] => destruct b
     end;
     cbn [next written storeAfter scheduled checked unchecked negb]).

Section WithRuntime.
Context `{GoRuntime}.

(** X4: no command closes the connection while the writes succeed: the
    dispatcher ends the loop only when its [conn.Write] has failed. *)
Theorem dispatch_returns_only_on_write_failure (config : Config)
    (elements : list string) (s : Store) (now : Z) (wok : bool) :
  next (dispatch config elements s now wok) = Return -> wok = false.
Proof.
  destruct wok; [|reflexivity].
  dispatch_cases; intros; discriminate.
Qed.

(** X5: a reply that is an error (it starts with "-") comes with no other
    effect: the store is as before and no removal is scheduled. *)
Theorem error_reply_changes_nothing (config : Config)
    (elements : list string) (s : Store) (now : Z) (wok : bool) (r : string) :
  written (dispatch config elements s now wok) = [r] ->
  HasPrefix r "-" = true ->
  storeAfter (dispatch config elements s now wok) = s /\
  scheduled (dispatch config elements s now wok) = [].
Proof.
  dispatch_cases; intros [= <-] Hprefix; try (split; reflexivity);
    try (vm_compute in Hprefix; discriminate);
    try (unfold bulk in Hprefix; cbn in Hprefix; discriminate);
    try (unfold handleConfigGet in Hprefix; cbn in Hprefix; discriminate);
    try (rewrite FrameProps.keysReply_bulkAll in Hprefix; cbn in Hprefix;
         discriminate).
Qed.

(** What a SET with the PX option and a number does. *)
Lemma dispatch_set_px (config : Config) (name key val opt ms : string)
    (more : list string) (px : Z) (s : Store) (now : Z) (wok : bool) :
  ToUpper name = "SET" ->
  ToUpper opt = "PX" ->
  ParseInt ms = Some px ->
  dispatch config (name :: key :: val :: opt :: ms :: more) s now wok =
    checked wok ("+OK" ++ CRLF) (Store_Set s key val px now) [].
Proof.
  intros Hname Hopt Hms. unfold dispatch. rewrite Hname. cbn.
  rewrite Hopt. cbn. now rewrite Hms.
Qed.

(** X6: SET key value PX ms with a positive number of milliseconds that fits
    64-bit nanoseconds, then GET key: the value comes back as long as the
    instant of the GET is not after the instant of the SET plus the TTL,
    and the null bulk string afterwards. *)
Theorem set_px_then_get_window (config : Config)
    (set opt get key val ms : string) (px : Z) (s : Store) (now1 now2 : Z)
    (w1 w2 : bool) :
  ToUpper set = "SET" ->
  ToUpper opt = "PX" ->
  ToUpper get = "GET" ->
  ParseInt ms = Some px ->
  0 < px <= 9223372036854 ->
  written
    (dispatch config [get; key]
       (storeAfter (dispatch config [set; key; val; opt; ms] s now1 w1))
       now2 w2)
  = [if now2 <=? now1 + px * Time.Millisecond then bulkOf val
     else "$-1" ++ eol].
Proof.
  intros Hset Hopt Hget Hms Hpx.
  rewrite (dispatch_set_px config set key val opt ms [] px s now1 w1
             Hset Hopt Hms).
  rewrite (DispatchProps.dispatch_get config get key _ now2 w2 Hget).
  cbn [checked storeAfter written].
  rewrite DispatchProps.Store_Get_exists.
  rewrite (StoreProps.Store_Set_ttl_in_range s key val px now1 Hpx).
  unfold isExpired, Time.After. cbn [hasExpiry expiresAt value andb].
  destruct (now2 <=? now1 + px * Time.Millisecond) eqn:Hle.
  - apply Z.leb_le in Hle.
    assert (Hlt : (now1 + px * Time.Millisecond <? now2) = false)
      by (apply Z.ltb_ge; lia).
    now rewrite Hlt.
  - apply Z.leb_gt in Hle.
    assert (Hlt : (now1 + px * Time.Millisecond <? now2) = true)
      by (apply Z.ltb_lt; lia).
    now rewrite Hlt.
Qed.

(** X7: SET key value PX ms with a number of milliseconds that is zero or
    negative is accepted, and stores the key without any expiry: a GET at
    any later instant returns the value. *)
Theorem set_px_nonpositive_never_expires (config : Config)
    (set opt get key val ms : string) (px : Z) (s : Store) (now1 now2 : Z)
    (w1 w2 : bool) :
  ToUpper set = "SET" ->
  ToUpper opt = "PX" ->
  ToUpper get = "GET" ->
  ParseInt ms = Some px ->
  px <= 0 ->
  written (dispatch config [set; key; val; opt; ms] s now1 w1)
    = ["+OK" ++ eol] /\
  written
    (dispatch config [get; key]
       (storeAfter (dispatch config [set; key; val; opt; ms] s now1 w1))
       now2 w2)
  = [bulkOf val].
Proof.
  intros Hset Hopt Hget Hms Hpx.
  rewrite (dispatch_set_px config set key val opt ms [] px s now1 w1
             Hset Hopt Hms).
  split; [reflexivity|].
  rewrite (DispatchProps.dispatch_get config get key _ now2 w2 Hget).
  cbn [checked storeAfter written].
  rewrite DispatchProps.Store_Get_exists.
  rewrite (StoreProps.Store_Set_no_ttl s key val px now1 Hpx).
  reflexivity.
Qed.

(** The reply of CONFIG GET is the array of the parameter and its value. *)
Lemma handleConfigGet_keysReply (config : Config) (param : string) :
  handleConfigGet config param = keysReply [param; configValue config param].
Proof.
  unfold handleConfigGet, keysReply, configValue. cbn [fold_left List.length].
  change (itoa 2) with "2". now rewrite !FrameProps.append_assoc.
Qed.

(** X8: CONFIG GET param replies with the two-element array of the
    parameter as it was sent and the configured value ([dir] and
    [dbfilename], matched without regard to case; the empty string for
    any other name); arguments after the parameter are ignored, the store
    is untouched, and the loop goes on even when the write fails. *)
Theorem config_get_reply (config : Config) (name sub param : string)
    (more : list string) (s : Store) (now : Z) (wok : bool) :
  ToUpper name = "CONFIG" ->
  ToUpper sub = "GET" ->
  dispatch config (name :: sub :: param :: more) s now wok =
    mkEffect [keysReply [param; configValue config param]] s [] Continue.
Proof.
  intros Hname Hsub. unfold dispatch. rewrite Hname. cbn.
  rewrite Hsub. cbn. unfold unchecked.
  now rewrite handleConfigGet_keysReply.
Qed.

Lemma HasSuffix_line (x : string) : HasSuffix (x ++ CRLF) CRLF = true.
Proof.
  unfold HasSuffix. rewrite FrameProps.length_append.
  change (String.length CRLF) with 2%nat.
  replace (String.length x + 2 - 2)%nat with (String.length x + 0)%nat by lia.
  rewrite FrameProps.substring_skip.
  assert (Hle : (2 <=? String.length x + 2)%nat = true)
    by (apply Nat.leb_le; lia).
  now rewrite Hle.
Qed.

Lemma bulk_wellFormed (a : string) : wellFormedReply (bulk a).
Proof.
  split.
  - unfold bulk. rewrite FrameProps.append_cons.
    rewrite (FrameProps.HasPrefix_cons "$").
    now destruct (HasPrefix _ "+"), (HasPrefix _ "-"), (HasPrefix _ "*").
  - unfold bulk. rewrite <- !FrameProps.append_assoc. apply HasSuffix_line.
Qed.

Lemma HasSuffix_bulkAll (keys : list string) :
  forall x, HasSuffix (x ++ CRLF ++ bulkAll keys) CRLF = true.
Proof.
  induction keys as [|key keys IH]; intros x.
  - cbn [bulkAll fold_right]. rewrite FrameProps.append_nil_r.
    apply HasSuffix_line.
  - cbn [bulkAll fold_right]. fold (bulkAll keys). unfold bulk.
    rewrite !FrameProps.append_assoc.
    specialize (IH (x ++ CRLF ++ "$" ++ itoa (String.length key) ++ CRLF
                      ++ key)).
    now rewrite !FrameProps.append_assoc in IH.
Qed.

Lemma keysReply_wellFormed (keys : list string) :
  wellFormedReply (keysReply keys).
Proof.
  rewrite FrameProps.keysReply_bulkAll. split.
  - rewrite FrameProps.append_cons.
    rewrite (FrameProps.HasPrefix_cons "*").
    now destruct (HasPrefix _ "+"), (HasPrefix _ "-"), (HasPrefix _ "$").
  - rewrite <- FrameProps.append_assoc. apply HasSuffix_bulkAll.
Qed.

(** X9: everything the dispatcher writes is a reply of the wire protocol:
    it starts with a type byte and ends with CR LF. *)
Theorem replies_are_well_formed (config : Config) (elements : list string)
    (s : Store) (now : Z) (wok : bool) (r : string) :
  r ∈ written (dispatch config elements s now wok) -> wellFormedReply r.
Proof.
  dispatch_cases; intros Hr;
    try (now apply not_elem_of_nil in Hr);
    apply list_elem_of_singleton in Hr; subst r;
    try apply bulk_wellFormed;
    try apply keysReply_wellFormed;
    try (rewrite handleConfigGet_keysReply; apply keysReply_wellFormed);
    try (split; vm_compute; reflexivity).
Qed.

End WithRuntime.

Lemma dispatch_returns_only_on_write_failure_witness : false = false.
Proof.
  apply (@dispatch_returns_only_on_write_failure amd64 sampleConfig ["PING"]
           emptyStore 0 false).
  reflexivity.
Defined.

Lemma error_reply_changes_nothing_witness :
  storeAfter (@dispatch amd64 sampleConfig ["get"] storeWithTtl 0 true)
    = storeWithTtl /\
  scheduled (@dispatch amd64 sampleConfig ["get"] storeWithTtl 0 true) = [].
Proof.
  apply (@error_reply_changes_nothing amd64 sampleConfig ["get"] storeWithTtl
           0 true
           ("-ERR wrong number of arguments for 'get' command" ++ CRLF));
    reflexivity.
Defined.

Lemma set_px_then_get_window_witness :
  written
    (@dispatch amd64 sampleConfig ["GET"; "k"]
       (storeAfter (@dispatch amd64 sampleConfig ["SET"; "k"; "v"; "px"; "50"]
                      emptyStore 0 true))
       60000000 true)
  = [if 60000000 <=? 0 + 50 * Time.Millisecond
     then "$1" ++ eol ++ "v" ++ eol
     else "$-1" ++ eol].
Proof.
  apply (@set_px_then_get_window amd64 sampleConfig "SET" "px" "GET" "k" "v"
           "50" 50 emptyStore 0 60000000 true true);
    try reflexivity; lia.
Defined.

Lemma set_px_nonpositive_never_expires_witness :
  written (@dispatch amd64 sampleConfig ["SET"; "k"; "v"; "PX"; "-5"]
             emptyStore 0 true) = ["+OK" ++ eol] /\
  written
    (@dispatch amd64 sampleConfig ["GET"; "k"]
       (storeAfter (@dispatch amd64 sampleConfig ["SET"; "k"; "v"; "PX"; "-5"]
                      emptyStore 0 true))
       1000000000000 true)
  = ["$1" ++ eol ++ "v" ++ eol].
Proof.
  apply (@set_px_nonpositive_never_expires amd64 sampleConfig "SET" "PX" "GET"
           "k" "v" "-5" (-5) emptyStore 0 1000000000000 true true);
    try reflexivity; lia.
Defined.

Lemma config_get_reply_witness :
  @dispatch amd64 sampleConfig ["config"; "get"; "DIR"] emptyStore 0 false =
    mkEffect [keysReply ["DIR"; "/tmp/x"]] emptyStore [] Continue.
Proof.
  apply (@config_get_reply amd64 sampleConfig "config" "get" "DIR" []
           emptyStore 0 false); reflexivity.
Defined.

Lemma replies_are_well_formed_witness :
  wellFormedReply ("-ERR unknown command" ++ CRLF).
Proof.
  apply (@replies_are_well_formed amd64 sampleConfig ["FOOBAR"] emptyStore 0
           true).
  vm_compute. apply list_elem_of_here.
Defined.

End DispatchMore.

(** ** The command table *)

Module DispatchTable.

Section WithRuntime.
Context `{GoRuntime}.

Lemma keysReply_bytes (keys : list string) :
  keysReply keys =
    "*" ++ decimalOf (List.length keys) ++ eol
      ++ fold_right (fun key rest => bulkOf key ++ rest) "" keys.
Proof. rewrite FrameProps.keysReply_bulkAll. reflexivity. Qed.

Lemma handleConfigGet_bytes (config : Config) (param : string) :
  handleConfigGet config param =
    "*2" ++ eol ++ bulkOf param ++ bulkOf (configValue config param).
Proof. reflexivity. Qed.

(** C3, as amended: for every argument list with at least one element the
    dispatcher writes exactly one reply and does no more than the command
    table says.  The table is given command by command, the name being
    matched after [ToUpper], with the bytes of each reply written out.
    - PING: [+PONG]; no effect.
    - ECHO: the first argument as a bulk string, or an error without one;
      no effect.
    - SET: with fewer than two arguments, with PX and nothing after it, or
      with PX and something that is not a 64-bit integer, an error and no
      effect; else [+OK] and one [Store.Set] of the key and the value, with
      the TTL 0 when the third argument is missing or is not PX, and with
      the integer that follows PX otherwise.  No removal is scheduled.
    - GET: an error unless there is exactly one argument; the null bulk
      string for a key that is absent; the null bulk string for a key whose
      entry is expired, and the removal of that key is scheduled; the value
      as a bulk string otherwise.  The store is as before.
    - CONFIG: with GET and a parameter, the array of the parameter and its
      value; else an error.  No effect.
    - KEYS: an error unless the one argument is [*]; else the array of the
      keys whose entries are not expired, and the removal of exactly the
      expired ones is scheduled.  The store is as before.
    - Any other name: an error; no effect.
    For the empty argument list (a frame whose element count is 0) nothing
    is written and nothing changes. *)
Theorem one_reply_per_nonempty_command (config : Config) (name : string)
    (args : list string) (s : Store) (now : Z) (wok : bool) :
  let e := dispatch config (name :: args) s now wok in
  (exists reply, written e = [reply]) /\
  (ToUpper name = "PING" ->
   written e = ["+PONG" ++ eol] /\ storeAfter e = s /\ scheduled e = []) /\
  (ToUpper name = "ECHO" ->
   storeAfter e = s /\ scheduled e = [] /\
   (args = [] ->
    written e = ["-ERR wrong number of arguments for 'echo' command" ++ eol])
   /\
   (forall arg more, args = arg :: more -> written e = [bulkOf arg])) /\
  (ToUpper name = "SET" ->
   scheduled e = [] /\
   ((List.length args < 2)%nat ->
    written e = ["-ERR wrong number of arguments for 'set' command" ++ eol]
    /\ storeAfter e = s) /\
   (forall key val opts, args = key :: val :: opts ->
      (opts = [] \/ (exists opt more, opts = opt :: more /\
                                      ToUpper opt <> "PX") ->
       written e = ["+OK" ++ eol] /\
       storeAfter e = Store_Set s key val 0 now) /\
      (forall opt, opts = [opt] -> ToUpper opt = "PX" ->
         written e = ["-ERR syntax error" ++ eol] /\ storeAfter e = s) /\
      (forall opt ms more, opts = opt :: ms :: more -> ToUpper opt = "PX" ->
         (ParseInt ms = None ->
          written e = ["-ERR invalid expire time in 'set' command" ++ eol]
          /\ storeAfter e = s) /\
         (forall px, ParseInt ms = Some px ->
            written e = ["+OK" ++ eol] /\
            storeAfter e = Store_Set s key val px now)))) /\
  (ToUpper name = "GET" ->
   storeAfter e = s /\
   (List.length args <> 1%nat ->
    written e = ["-ERR wrong number of arguments for 'get' command" ++ eol]
    /\ scheduled e = []) /\
   (forall key, args = [key] ->
      (data s !! key = None ->
       written e = ["$-1" ++ eol] /\ scheduled e = []) /\
      (forall item, data s !! key = Some item ->
         (isExpired item now = true ->
          written e = ["$-1" ++ eol] /\ scheduled e = [key]) /\
         (isExpired item now = false ->
          written e = [bulkOf (value item)] /\ scheduled e = [])))) /\
  (ToUpper name = "CONFIG" ->
   storeAfter e = s /\ scheduled e = [] /\
   (forall sub param more, args = sub :: param :: more ->
      ToUpper sub = "GET" ->
      written e =
        ["*2" ++ eol ++ bulkOf param ++ bulkOf (configValue config param)]) /\
   ((List.length args < 2)%nat \/
    (exists sub rest, args = sub :: rest /\ ToUpper sub <> "GET") ->
    written e = ["-ERR Wrong number of arguments" ++ eol])) /\
  (ToUpper name = "KEYS" ->
   storeAfter e = s /\
   (List.length args <> 1%nat ->
    written e = ["-ERR wrong number of arguments for 'keys' command" ++ eol]
    /\ scheduled e = []) /\
   (forall pattern, args = [pattern] -> pattern <> "*" ->
      written e = ["-ERR unsupported pattern" ++ eol] /\ scheduled e = []) /\
   (args = ["*"] ->
    exists keys,
      written e =
        ["*" ++ decimalOf (List.length keys) ++ eol
           ++ fold_right (fun key rest => bulkOf key ++ rest) "" keys] /\
      (forall k, k ∈ keys <->
         exists item, data s !! k = Some item /\ isExpired item now = false)
      /\
      (forall k, k ∈ scheduled e <->
         exists item, data s !! k = Some item /\ isExpired item now = true)))
  /\
  (ToUpper name ∉ ["PING"; "ECHO"; "SET"; "GET"; "CONFIG"; "KEYS"] ->
   written e = ["-ERR unknown command" ++ eol] /\
   storeAfter e = s /\ scheduled e = []) /\
  written (dispatch config [] s now wok) = [] /\
  storeAfter (dispatch config [] s now wok) = s /\
  scheduled (dispatch config [] s now wok) = [] /\
  next (dispatch config [] s now wok) = Continue.
Proof.
  intros e. subst e.
  split.
  { DispatchMore.dispatch_cases; eauto. }
  split.
  { intros Hname. unfold dispatch. rewrite Hname. cbn. tauto. }
  split.
  { intros Hname. unfold dispatch. rewrite Hname. cbn.
    destruct args as [|arg more]; cbn.
    - repeat split. intros; discriminate.
    - repeat split; [intros; discriminate|].
      intros arg' more' [= <- <-]. reflexivity. }
  split.
  { intros Hname. unfold dispatch. rewrite Hname. cbn.
    destruct args as [|key [|val opts]]; cbn [List.length].
    1,2: cbn; split; [reflexivity|]; split; [tauto|]; intros; discriminate.
    split.
    { destruct opts as [|opt [|ms more]]; cbn; try reflexivity;
        destruct (String.eqb (ToUpper opt) "PX"); cbn; try reflexivity.
      destruct (ParseInt ms); reflexivity. }
    split; [intros; lia|].
    intros key' val' opts' [= <- <- <-].
    split; [|split].
    - intros [->|(opt & more & -> & Hopt)]; [cbn; tauto|].
      apply String.eqb_neq in Hopt. rewrite Hopt. cbn. tauto.
    - intros opt -> Hopt. rewrite Hopt. cbn. tauto.
    - intros opt ms more -> Hopt. rewrite Hopt. cbn. split.
      + intros ->. cbn. tauto.
      + intros px ->. cbn. tauto. }
  split.
  { intros Hname.
    destruct args as [|key [|extra rest]].
    1,3: unfold dispatch; rewrite Hname; cbn;
      split; [reflexivity|]; split; [tauto|]; intros; discriminate.
    rewrite (DispatchProps.dispatch_get config name key s now wok Hname).
    cbn [checked written storeAfter scheduled List.length].
    split; [reflexivity|]. split; [intros; lia|].
    intros key' [= <-]. rewrite DispatchProps.Store_Get_exists.
    split.
    - intros ->. cbn. tauto.
    - intros item ->. split; intros ->; cbn; tauto. }
  split.
  { intros Hname. unfold dispatch. rewrite Hname. cbn.
    destruct args as [|sub [|param more]]; cbn [List.length].
    1,2: cbn; split; [reflexivity|]; split; [reflexivity|];
      split; [intros; discriminate|]; intros _; reflexivity.
    split.
    { destruct (String.eqb (ToUpper sub) "GET"); reflexivity. }
    split.
    { destruct (String.eqb (ToUpper sub) "GET"); reflexivity. }
    split.
    - intros sub' param' more' [= <- <- <-] Hsub. rewrite Hsub. cbn.
      now rewrite handleConfigGet_bytes.
    - intros [Hlen|(sub' & rest & [= <- <-] & Hsub)]; [cbn in Hlen; lia|].
      apply String.eqb_neq in Hsub. rewrite Hsub. reflexivity. }
  split.
  { intros Hname.
    pose proof (StoreProps.elem_of_getAllKeys s now) as Hkeys.
    pose proof (StoreProps.elem_of_getAllKeys_scheduled s now) as Hsched.
    unfold dispatch. rewrite Hname.
    destruct (getAllKeys s now) as [keys sched]. cbn [fst snd] in Hkeys, Hsched.
    cbn.
    destruct args as [|pattern [|extra rest]]; cbn [List.length].
    1,3: cbn; split; [reflexivity|]; split; [tauto|];
      split; intros; discriminate.
    split.
    { destruct (String.eqb pattern "*"); reflexivity. }
    split; [intros; lia|].
    split.
    - intros pattern' [= <-] Hpattern.
      apply String.eqb_neq in Hpattern. rewrite Hpattern. cbn. tauto.
    - intros [= ->]. cbn.
      exists keys. rewrite keysReply_bytes.
      split; [reflexivity|]. split; [exact Hkeys|exact Hsched]. }
  split.
  { intros Hname.
    rewrite FrameProps.dispatch_unknown; [cbn; tauto|..];
      intros Heq; apply Hname; rewrite Heq;
      repeat first [apply list_elem_of_here | apply list_elem_of_further]. }
  cbn. tauto.
Qed.

End WithRuntime.

End DispatchTable.

(** ** More on the store: removal, scans and their composition *)

Module StoreMore.

(** The entry of a key after the scheduled removals have run. *)
Lemma runRemovals_lookup (keys : list string) :
  forall (s : Store) (k : string),
    data (runRemovals s keys) !! k =
      if decide (k ∈ keys) then None else data s !! k.
Proof.
  unfold runRemovals.
  induction keys as [|key keys IH]; intros s k.
  - cbn. destruct (decide (k ∈ [])) as [Hin|_]; [|reflexivity].
    now apply not_elem_of_nil in Hin.
  - cbn [fold_left]. rewrite IH. unfold deleteKey. cbn [data].
    destruct (decide (k ∈ keys)) as [Hin|Hnot].
    + destruct (decide (k ∈ key :: keys)) as [_|Hno]; [reflexivity|].
      exfalso. apply Hno. now apply list_elem_of_further.
    + destruct (decide (k = key)) as [->|Hne].
      * rewrite lookup_delete_eq.
        destruct (decide (key ∈ key :: keys)) as [_|Hno]; [reflexivity|].
        exfalso. apply Hno. apply list_elem_of_here.
      * rewrite lookup_delete_ne by congruence.
        destruct (decide (k ∈ key :: keys)) as [Hin|_]; [|reflexivity].
        apply elem_of_cons in Hin. destruct Hin; congruence.
Qed.

(** X10: lazy expiry is consistent for a read.  Once the removal that a [Get]
    scheduled has run, the same [Get] gives the same answer and schedules
    nothing more, and no other key has changed. *)
Theorem removal_after_get_is_consistent (s : Store) (key : string) (now : Z) :
  let r := Store_Get s key now in
  Store_Get (runRemovals s r.2) key now = (r.1.1, r.1.2, []) /\
  (forall k, k <> key ->
     data (runRemovals s r.2) !! k = data s !! k).
Proof.
  cbv zeta. destruct (data s !! key) as [item|] eqn:Hlook.
  - rewrite (StoreProps.Store_Get_present s key item now Hlook).
    destruct (isExpired item now) eqn:Hx; cbn [fst snd].
    + split.
      * unfold Store_Get. rewrite runRemovals_lookup.
        destruct (decide (key ∈ [key])) as [_|Hno]; [reflexivity|].
        exfalso. apply Hno. apply list_elem_of_here.
      * intros k Hne. rewrite runRemovals_lookup.
        destruct (decide (k ∈ [key])) as [Hin|_]; [|reflexivity].
        apply list_elem_of_singleton in Hin. congruence.
    + split; [|reflexivity].
      unfold runRemovals. cbn [fold_left].
      rewrite (StoreProps.Store_Get_present s key item now Hlook).
      now rewrite Hx.
  - rewrite (StoreProps.Store_Get_absent s key now Hlook). cbn [fst snd].
    split; [|reflexivity].
    unfold runRemovals. cbn [fold_left].
    apply StoreProps.Store_Get_absent. exact Hlook.
Qed.

(** X11: lazy expiry is consistent for a scan.  Once the removals that
    [getAllKeys] scheduled have run, a scan at the same instant lists the
    same keys and finds nothing left to remove. *)
Theorem removal_after_scan_is_consistent (s : Store) (now : Z) :
  let r := getAllKeys s now in
  (forall k, k ∈ (getAllKeys (runRemovals s r.2) now).1 <-> k ∈ r.1) /\
  (getAllKeys (runRemovals s r.2) now).2 = [].
Proof.
  cbv zeta. split.
  - intros k. rewrite !StoreProps.elem_of_getAllKeys.
    rewrite runRemovals_lookup.
    destruct (decide (k ∈ (getAllKeys s now).2)) as [Hin|Hnot].
    + apply StoreProps.elem_of_getAllKeys_scheduled in Hin.
      destruct Hin as [item [Hlook Hdead]]. split.
      * intros [item' [Habs _]]. discriminate.
      * intros [item' [Hlook' Hlive]]. congruence.
    + reflexivity.
  - destruct ((getAllKeys (runRemovals s (getAllKeys s now).2) now).2)
      as [|k rest] eqn:Hleft; [reflexivity|].
    exfalso.
    assert (Hk : k ∈ (getAllKeys (runRemovals s (getAllKeys s now).2) now).2)
      by (rewrite Hleft; apply list_elem_of_here).
    apply StoreProps.elem_of_getAllKeys_scheduled in Hk.
    destruct Hk as [item [Hlook Hdead]].
    rewrite runRemovals_lookup in Hlook.
    destruct (decide (k ∈ (getAllKeys s now).2)) as [Hin|Hnot];
      [discriminate|].
    apply Hnot. apply StoreProps.elem_of_getAllKeys_scheduled. eauto.
Qed.

(** X12: the race of the detached removal.  A [Get] finds the key expired and
    schedules its removal; a [Set] of the same key runs before the removal
    does; the removal then deletes the new entry, and the next [Get]
    reports the key absent whatever its new expiry. *)
Theorem removal_after_later_set_loses_the_write (s : Store) (key : string)
    (item : StoreItem) (now : Z) (val : string) (px now2 now3 : Z) :
  data s !! key = Some item ->
  isExpired item now = true ->
  (Store_Get s key now).2 = [key] /\
  Store_Get (runRemovals (Store_Set s key val px now2)
                         (Store_Get s key now).2) key now3
    = ("", false, []).
Proof.
  intros Hlook Hdead.
  rewrite (StoreProps.Store_Get_present s key item now Hlook), Hdead.
  cbn [snd]. split; [reflexivity|].
  unfold Store_Get. rewrite runRemovals_lookup.
  destruct (decide (key ∈ [key])) as [_|Hno]; [reflexivity|].
  exfalso. apply Hno. apply list_elem_of_here.
Qed.

Lemma removal_after_later_set_loses_the_write_witness :
  (Store_Get storeWithTtl "k" 5000096).2 = ["k"] /\
  Store_Get (runRemovals (Store_Set storeWithTtl "k" "new" 0 5000097)
                         (Store_Get storeWithTtl "k" 5000096).2) "k" 5000098
    = ("", false, []).
Proof.
  apply (removal_after_later_set_loses_the_write storeWithTtl "k"
           (mkItem "v" true 5000095) 5000096 "new" 0 5000097 5000098);
    vm_compute; reflexivity.
Defined.

Lemma filter_fst_NoDup {A : Type} (f : string * A -> bool)
    (l : list (string * A)) :
  NoDup l.*1 -> NoDup (List.filter f l).*1.
Proof.
  induction l as [|x l IH]; intros Hnd; [exact Hnd|].
  cbn [fmap list_fmap] in Hnd. apply NoDup_cons in Hnd.
  destruct Hnd as [Hnotin Hnd]. cbn [List.filter].
  destruct (f x).
  - cbn [fmap list_fmap]. apply NoDup_cons. split; [|now apply IH].
    intros Hin. apply Hnotin.
    apply list_elem_of_fmap in Hin. destruct Hin as [y [Hy Hin]].
    apply list_elem_of_fmap. exists y. split; [exact Hy|].
    apply list_elem_of_In in Hin. apply filter_In in Hin.
    apply list_elem_of_In. tauto.
  - now apply IH.
Qed.

Lemma filter_lengths {A : Type} (f : A -> bool) (l : list A) :
  (List.length (List.filter (fun x => negb (f x)) l)
   + List.length (List.filter f l) = List.length l)%nat.
Proof.
  induction l as [|x l IH]; [reflexivity|].
  cbn [List.filter]. destruct (f x); cbn [negb List.length]; lia.
Qed.

(** X13: a scan splits the keys of the map in two.  Every key of the map is
    either listed or scheduled for removal, never both; no key appears
    twice in either list; and the two lists together are as long as the
    map is large. *)
Theorem getAllKeys_partitions_the_keys (s : Store) (now : Z) :
  let r := getAllKeys s now in
  NoDup r.1 /\ NoDup r.2 /\
  (forall k, k ∈ r.1 -> k ∈ r.2 -> False) /\
  (forall k, is_Some (data s !! k) <-> k ∈ r.1 \/ k ∈ r.2) /\
  (List.length r.1 + List.length r.2 = size (data s))%nat.
Proof.
  cbv zeta.
  split; [|split; [|split; [|split]]].
  - unfold getAllKeys. cbn [fst]. apply filter_fst_NoDup.
    apply NoDup_fst_map_to_list.
  - unfold getAllKeys. cbn [snd]. apply filter_fst_NoDup.
    apply NoDup_fst_map_to_list.
  - intros k Hkept Hsched.
    apply StoreProps.elem_of_getAllKeys in Hkept.
    apply StoreProps.elem_of_getAllKeys_scheduled in Hsched.
    destruct Hkept as [item [Hlook Hlive]].
    destruct Hsched as [item' [Hlook' Hdead]]. congruence.
  - intros k. rewrite StoreProps.elem_of_getAllKeys,
      StoreProps.elem_of_getAllKeys_scheduled. split.
    + intros [item Hlook].
      destruct (isExpired item now) eqn:Hx; [right|left]; eauto.
    + intros [[item [Hlook _]]|[item [Hlook _]]]; eauto.
  - unfold getAllKeys. cbn [fst snd]. rewrite !length_fmap.
    rewrite filter_lengths. apply length_map_to_list.
Qed.

(** X14: what a [Set] does to a scan.  After [Set] the scan lists the key
    written exactly when its new entry is not expired (always, for a TTL
    that is not positive), and lists any other key exactly when it did
    before. *)
Theorem scan_after_set (s : Store) (key val : string) (px now now' : Z)
    (k : string) :
  k ∈ (getAllKeys (Store_Set s key val px now) now').1 <->
  (k = key /\ (px <= 0 \/ now' <= now + Time.ofMillis px)) \/
  (k <> key /\ k ∈ (getAllKeys s now').1).
Proof.
  rewrite !StoreProps.elem_of_getAllKeys.
  destruct (decide (k = key)) as [->|Hne].
  - unfold Store_Set. cbn [data]. rewrite lookup_insert_eq. split.
    + intros [item [[= <-] Hlive]]. left. split; [reflexivity|].
      apply StoreProps.isExpired_false in Hlive.
      cbn [hasExpiry expiresAt] in Hlive.
      destruct (0 <? px) eqn:Hpx.
      * destruct Hlive as [Habs|Hle]; [discriminate|].
        right. exact Hle.
      * left. now apply Z.ltb_ge.
    + intros [[_ Hcase]|[Habs _]]; [|congruence].
      eexists. split; [reflexivity|].
      apply StoreProps.isExpired_false. cbn [hasExpiry expiresAt].
      destruct (0 <? px) eqn:Hpx.
      * right. destruct Hcase as [Hle|Hle]; [|exact Hle].
        apply Z.ltb_lt in Hpx. lia.
      * now left.
  - rewrite StoreProps.Store_Set_other by congruence. split.
    + intros Hin. right. split; [exact Hne|exact Hin].
    + intros [[Habs _]|[_ Hin]]; [congruence|exact Hin].
Qed.

End StoreMore.

(** ** More on the snapshot reader *)

Module SnapshotProps.
Import Rdb Snapshot.
Local Open Scope list_scope.

(** Lists of bytes up to associativity of the concatenation. *)
Ltac norm_app :=
  repeat first [rewrite <- app_assoc | progress cbn [app]].
Ltac norm_app_in H :=
  repeat first [rewrite <- app_assoc in H | progress cbn [app] in H].

(** *** Reading at a cursor *)

Lemma cursor_snoc (before : list byte) (b : byte) (ahead : list byte) :
  mkFile (before ++ b :: ahead) (S (List.length before)) =
    cursor (before ++ [b]) ahead.
Proof.
  unfold cursor. rewrite <- app_assoc, length_app. cbn [List.length app].
  f_equal. lia.
Qed.

Lemma readByte_cursor (before : list byte) (b : byte) (ahead : list byte) :
  readByte (cursor before (b :: ahead)) =
    Ok (Some b) (cursor (before ++ [b]) ahead).
Proof.
  unfold readByte, cursor. cbn [content pos].
  rewrite nth_error_app2 by lia. rewrite Nat.sub_diag. cbn [nth_error].
  now rewrite cursor_snoc.
Qed.

Lemma readByte_end (before : list byte) :
  readByte (cursor before []) = Ok None (cursor before []).
Proof.
  unfold readByte, cursor. cbn [content pos]. rewrite app_nil_r.
  assert (Hnone : nth_error before (List.length before) = None)
    by (apply nth_error_None; lia).
  now rewrite Hnone.
Qed.

Lemma readOpcode_cursor (e : Error) (before : list byte) (b : byte)
    (ahead : list byte) :
  readOpcode e (cursor before (b :: ahead)) =
    Ok b (cursor (before ++ [b]) ahead).
Proof. unfold readOpcode, bind. now rewrite readByte_cursor. Qed.

Lemma readOpcode_end (e : Error) (before : list byte) :
  readOpcode e (cursor before []) = Fail e.
Proof. unfold readOpcode, bind. now rewrite readByte_end. Qed.

Lemma readFull_cursor (before bs ahead : list byte) :
  readFull (List.length bs) (cursor before (bs ++ ahead)) =
    Ok bs (cursor (before ++ bs) ahead).
Proof.
  unfold readFull, cursor. cbn [content pos].
  rewrite drop_app_length.
  assert (Hle : (List.length bs <=? List.length (bs ++ ahead))%nat = true)
    by (apply Nat.leb_le; rewrite length_app; lia).
  rewrite Hle. rewrite take_app_length.
  now rewrite <- app_assoc, length_app.
Qed.

Lemma readFull_short (n : nat) (before ahead : list byte) :
  (List.length ahead < n)%nat ->
  readFull n (cursor before ahead) = Fail Passed.
Proof.
  intros Hshort. unfold readFull, cursor. cbn [content pos].
  rewrite drop_app_length.
  assert (Hle : (n <=? List.length ahead)%nat = false)
    by (apply Nat.leb_gt; lia).
  now rewrite Hle.
Qed.

Lemma seek_cursor (before bs ahead : list byte) :
  seek (Z.of_nat (List.length bs)) (cursor before (bs ++ ahead)) =
    Ok tt (cursor (before ++ bs) ahead).
Proof.
  unfold seek, cursor. cbn [content pos].
  assert (Hpos : (Z.of_nat (List.length before) + Z.of_nat (List.length bs)
                  <? 0) = false) by (apply Z.ltb_ge; lia).
  rewrite Hpos. rewrite <- app_assoc, length_app. f_equal. f_equal. lia.
Qed.

(** *** Little-endian numbers *)

Lemma to_N_byteOf (n : Z) : Z.of_N (Byte.to_N (byteOf n)) = n mod 256.
Proof.
  unfold byteOf.
  pose proof (Z.mod_pos_bound n 256 ltac:(lia)) as Hb.
  destruct (Byte.of_N (Z.to_N (n mod 256))) as [b|] eqn:Hof.
  - apply Byte.to_of_N in Hof. rewrite Hof. lia.
  - apply Byte.of_N_None_iff in Hof. lia.
Qed.

Lemma length_encodeLE (width : nat) (n : Z) :
  List.length (encodeLE width n) = width.
Proof.
  revert n. induction width as [|w IH]; intros n; [reflexivity|].
  cbn [encodeLE List.length]. now rewrite IH.
Qed.

Lemma littleEndian_encodeLE (width : nat) :
  forall n, littleEndian (encodeLE width n) = n mod 256 ^ Z.of_nat width.
Proof.
  induction width as [|w IH]; intros n.
  - cbn. now rewrite Z.mod_1_r.
  - cbn [encodeLE littleEndian]. rewrite to_N_byteOf, IH.
    rewrite Nat2Z.inj_succ, Z.pow_succ_r by lia.
    rewrite (Z.rem_mul_r n 256 (256 ^ Z.of_nat w)) by lia. reflexivity.
Qed.

Lemma length_list_byte_of_string (s : string) :
  List.length (list_byte_of_string s) = String.length s.
Proof.
  unfold list_byte_of_string. rewrite List.length_map.
  induction s as [|c s IH]; [reflexivity|].
  cbn [list_ascii_of_string List.length String.length]. now rewrite IH.
Qed.

(** *** Reading the parts of the layout *)

Lemma bind_Ok {A B : Type} (m : M A) (k : A -> M B) (f f' : File) (a : A) :
  m f = Ok a f' -> bind m k f = k a f'.
Proof. intros Hm. unfold bind. now rewrite Hm. Qed.

Lemma bind_Fail {A B : Type} (m : M A) (k : A -> M B) (f : File)
    (e : Error) :
  m f = Fail e -> bind m k f = Fail e.
Proof. intros Hm. unfold bind. now rewrite Hm. Qed.

Lemma orFail_Ok {A : Type} (m : M A) (e : Error) (f f' : File) (a : A) :
  m f = Ok a f' -> orFail m e f = Ok a f'.
Proof. intros Hm. unfold orFail. now rewrite Hm. Qed.

(** The signed value of the four bytes of [n]. *)
Lemma readLength_cursor (n : Z) (before ahead : list byte) :
  readLength (cursor before (encodeLE 4 n ++ ahead)) =
    Ok (if n mod 2 ^ 32 <? 2 ^ 31 then n mod 2 ^ 32
        else n mod 2 ^ 32 - 2 ^ 32)
       (cursor (before ++ encodeLE 4 n) ahead).
Proof.
  unfold readLength, readInt32.
  pose proof (readFull_cursor before (encodeLE 4 n) ahead) as Hfull.
  rewrite length_encodeLE in Hfull.
  rewrite (bind_Ok _ _ _ _ _ Hfull). unfold ret.
  now rewrite littleEndian_encodeLE.
Qed.

Lemma readLength_small (n : Z) (before ahead : list byte) :
  0 <= n < 2 ^ 31 ->
  readLength (cursor before (encodeLE 4 n ++ ahead)) =
    Ok n (cursor (before ++ encodeLE 4 n) ahead).
Proof.
  intros Hn. rewrite readLength_cursor.
  rewrite Z.mod_small by lia.
  assert (Hlt : (n <? 2 ^ 31) = true) by (apply Z.ltb_lt; lia).
  now rewrite Hlt.
Qed.

Lemma readUint64_cursor (n : Z) (before ahead : list byte) :
  0 <= n < 2 ^ 64 ->
  readUint64 (cursor before (encodeLE 8 n ++ ahead)) =
    Ok n (cursor (before ++ encodeLE 8 n) ahead).
Proof.
  intros Hn. unfold readUint64.
  pose proof (readFull_cursor before (encodeLE 8 n) ahead) as Hfull.
  rewrite length_encodeLE in Hfull.
  rewrite (bind_Ok _ _ _ _ _ Hfull). unfold ret.
  rewrite littleEndian_encodeLE. now rewrite Z.mod_small by lia.
Qed.

Lemma skipString_cursor (s : string) (before ahead : list byte) :
  Z.of_nat (String.length s) < 2 ^ 31 ->
  skipString (cursor before (encodeString s ++ ahead)) =
    Ok tt (cursor (before ++ encodeString s) ahead).
Proof.
  intros Hlen. unfold skipString, encodeString.
  rewrite <- app_assoc.
  assert (Hn : 0 <= Z.of_nat (String.length s) < 2 ^ 31) by lia.
  rewrite (bind_Ok _ _ _ _ _ (readLength_small _ before _ Hn)).
  rewrite <- (length_list_byte_of_string s).
  rewrite seek_cursor. now rewrite <- app_assoc.
Qed.

Lemma skipMetadata_cursor (entry : string * string)
    (before ahead : list byte) :
  Z.of_nat (String.length (fst entry)) < 2 ^ 31 ->
  Z.of_nat (String.length (snd entry)) < 2 ^ 31 ->
  skipMetadata
    (cursor before
       (encodeString (fst entry) ++ encodeString (snd entry) ++ ahead)) =
    Ok tt
       (cursor (before ++ encodeString (fst entry) ++ encodeString (snd entry))
               ahead).
Proof.
  intros Hk Hv. unfold skipMetadata.
  rewrite (bind_Ok _ _ _ _ _ (skipString_cursor _ before _ Hk)).
  rewrite skipString_cursor by exact Hv. now rewrite <- app_assoc.
Qed.

Section WithRuntime.
Context `{GoRuntime}.

Lemma readString_cursor (s : string) (before ahead : list byte) :
  stringFits s ->
  readString (cursor before (encodeString s ++ ahead)) =
    Ok s (cursor (before ++ encodeString s) ahead).
Proof.
  intros [Hlen Halloc]. unfold readString, encodeString.
  rewrite <- app_assoc.
  assert (Hn : 0 <= Z.of_nat (String.length s) < 2 ^ 31) by lia.
  rewrite (bind_Ok _ _ _ _ _ (readLength_small _ before _ Hn)).
  assert (Hmake : makeOK 1 (Z.of_nat (String.length s)) = true).
  { unfold makeOK. apply andb_true_iff. split; apply Z.leb_le; lia. }
  rewrite Hmake. cbn [negb]. rewrite Nat2Z.id.
  pose proof (readFull_cursor
                (before ++ encodeLE 4 (Z.of_nat (String.length s)))
                (list_byte_of_string s) ahead) as Hfull.
  rewrite length_list_byte_of_string in Hfull.
  rewrite (bind_Ok _ _ _ _ _ Hfull). unfold ret.
  now rewrite string_of_list_byte_of_string, <- app_assoc.
Qed.

Lemma encodeRecord_split (kv : KeyValue) :
  encodeRecord kv = firstByte kv :: restBytes kv.
Proof.
  unfold encodeRecord, firstByte, restBytes. destruct (HasExpiry kv).
  - cbn [app]. now rewrite <- app_assoc.
  - reflexivity.
Qed.

Lemma readExpiry_ms (ms : Z) (before : list byte) (b : byte)
    (ahead : list byte) :
  0 <= ms < 2 ^ 63 ->
  readExpiry ExpireTimeMs (cursor before (encodeLE 8 ms ++ b :: ahead)) =
    Ok (true, ms * Time.Millisecond, b)
       (cursor (before ++ encodeLE 8 ms ++ [b]) ahead).
Proof.
  intros Hms. unfold readExpiry.
  change (Byte.eqb ExpireTimeMs ExpireTime) with false.
  change (Byte.eqb ExpireTimeMs ExpireTimeMs) with true. cbv iota.
  assert (Hms64 : 0 <= ms < 2 ^ 64) by lia.
  rewrite (bind_Ok _ _ _ _ _ (readUint64_cursor ms _ _ Hms64)).
  rewrite (bind_Ok _ _ _ _ _ (readOpcode_cursor Passed _ _ _)).
  unfold ret, Time.UnixMilli.
  rewrite wrap64_id by (unfold minInt64, maxInt64; lia).
  now rewrite <- app_assoc.
Qed.

(** One pass of the loop over the records reads one record of the layout,
    then reads the next opcode. *)
Lemma readRecords_record_then (fuel : nat) (kv : KeyValue)
    (acc : list KeyValue) (before ahead : list byte) :
  recordFits kv ->
  readRecords (S fuel) (firstByte kv) acc
    (cursor (before ++ [firstByte kv]) (restBytes kv ++ ahead)) =
  (get opcode := readOpcode ReadNextOpcodeFailed in
   readRecords fuel opcode (acc ++ [kv]))
    (cursor (before ++ encodeRecord kv) ahead).
Proof.
  intros [Hkey [Hval Hexp]].
  rewrite encodeRecord_split.
  destruct kv as [key val hasExp expAt].
  unfold firstByte, restBytes in *. cbn [HasExpiry ExpiresAt Key Value] in *.
  destruct hasExp.
  - destruct Hexp as [ms [Hms ->]].
    rewrite Z.div_mul by (unfold Time.Millisecond; lia).
    cbn [readRecords].
    change (Byte.eqb ExpireTimeMs DatabaseStart || Byte.eqb ExpireTimeMs EOF)
      with false. cbv iota.
    norm_app.
    rewrite (bind_Ok _ _ _ _ _ (readExpiry_ms ms _ TypeString _ Hms)).
    change (negb (Byte.eqb TypeString TypeString)) with false. cbv iota.
    rewrite (bind_Ok _ _ _ _ _
               (orFail_Ok _ _ _ _ _ (readString_cursor key _ _ Hkey))).
    rewrite (bind_Ok _ _ _ _ _
               (orFail_Ok _ _ _ _ _ (readString_cursor val _ _ Hval))).
    norm_app. reflexivity.
  - subst expAt. cbn [app].
    cbn [readRecords].
    change (Byte.eqb TypeString DatabaseStart || Byte.eqb TypeString EOF)
      with false. cbv iota.
    unfold readExpiry.
    change (Byte.eqb TypeString ExpireTime) with false.
    change (Byte.eqb TypeString ExpireTimeMs) with false. cbv iota.
    norm_app.
    unfold bind at 1. unfold ret at 1.
    change (negb (Byte.eqb TypeString TypeString)) with false. cbv iota.
    rewrite (bind_Ok _ _ _ _ _
               (orFail_Ok _ _ _ _ _ (readString_cursor key _ _ Hkey))).
    rewrite (bind_Ok _ _ _ _ _
               (orFail_Ok _ _ _ _ _ (readString_cursor val _ _ Hval))).
    norm_app. reflexivity.
Qed.

Lemma readRecords_record (fuel : nat) (kv : KeyValue) (acc : list KeyValue)
    (before : list byte) (b' : byte) (ahead : list byte) :
  recordFits kv ->
  readRecords (S fuel) (firstByte kv) acc
    (cursor (before ++ [firstByte kv]) (restBytes kv ++ b' :: ahead)) =
  readRecords fuel b' (acc ++ [kv])
    (cursor (before ++ encodeRecord kv ++ [b']) ahead).
Proof.
  intros Hfit. rewrite (readRecords_record_then fuel kv acc before _ Hfit).
  rewrite (bind_Ok _ _ _ _ _ (readOpcode_cursor _ _ _ _)).
  now rewrite <- app_assoc.
Qed.

(** A record that is the last thing in the file: the read of the next
    opcode fails. *)
Lemma readRecords_record_last (fuel : nat) (kv : KeyValue)
    (acc : list KeyValue) (before : list byte) :
  recordFits kv ->
  readRecords (S fuel) (firstByte kv) acc
    (cursor (before ++ [firstByte kv]) (restBytes kv)) =
  Fail ReadNextOpcodeFailed.
Proof.
  intros Hfit.
  pose proof (readRecords_record_then fuel kv acc before [] Hfit) as Hstep.
  rewrite app_nil_r in Hstep. rewrite Hstep.
  apply bind_Fail. apply readOpcode_end.
Qed.

(** The loop over the records reads the records of the layout one after
    the other and arrives at the byte after them. *)
Lemma readRecords_encoded (pairs : list KeyValue) :
  forall (fuel : nat) (acc : list KeyValue) (before : list byte)
         (stop : byte) (ahead : list byte) (b : byte) (tl : list byte),
    Forall recordFits pairs ->
    (List.length pairs <= fuel)%nat ->
    encodeRecords pairs ++ stop :: ahead = b :: tl ->
    readRecords fuel b acc (cursor (before ++ [b]) tl) =
      readRecords (fuel - List.length pairs) stop (acc ++ pairs)
        (cursor (before ++ encodeRecords pairs ++ [stop]) ahead).
Proof.
  induction pairs as [|kv pairs IH];
    intros fuel acc before stop ahead b tl Hfits Hfuel Hbytes.
  - cbn in Hbytes. injection Hbytes as <- <-.
    cbn [List.length encodeRecords map concat app].
    now rewrite Nat.sub_0_r, app_nil_r.
  - inversion Hfits as [|? ? Hfit Hfits']; subst.
    cbn [List.length] in Hfuel. destruct fuel as [|fuel]; [lia|].
    unfold encodeRecords in Hbytes. cbn [map concat] in Hbytes.
    fold (encodeRecords pairs) in Hbytes.
    rewrite encodeRecord_split in Hbytes. rewrite <- app_assoc in Hbytes.
    cbn [app] in Hbytes. injection Hbytes as <- <-.
    destruct (encodeRecords pairs ++ stop :: ahead) as [|b' tl'] eqn:Hnext.
    { destruct (encodeRecords pairs); discriminate. }
    rewrite (readRecords_record fuel kv acc before b' tl' Hfit).
    pose proof (IH fuel (acc ++ [kv])%list (before ++ encodeRecord kv) stop
                  ahead b' tl' Hfits' ltac:(lia) Hnext) as Hrest.
    rewrite <- ?app_assoc in Hrest. rewrite <- ?app_assoc.
    rewrite Hrest. cbn [List.length Nat.sub app].
    unfold encodeRecords. cbn [map concat].
    now rewrite <- ?app_assoc.
Qed.

(** The first byte of the records and what follows them. *)
Lemma first_record_byte (pairs : list KeyValue) (stop : byte)
    (ahead : list byte) (b : byte) (tl : list byte) :
  encodeRecords pairs ++ stop :: ahead = b :: tl ->
  b = stop \/ b = ExpireTimeMs \/ b = TypeString.
Proof.
  destruct pairs as [|kv pairs].
  - cbn. intros [= <- _]. now left.
  - unfold encodeRecords. cbn [map concat].
    rewrite encodeRecord_split. cbn [app]. intros [= <- _].
    unfold firstByte. destruct (HasExpiry kv); auto.
Qed.

Lemma readResize_cursor (a c : Z) (b : byte) (before tl : list byte) :
  (exec readLength in exec readLength in readOpcode Passed)
    (cursor before (encodeLE 4 a ++ encodeLE 4 c ++ b :: tl)) =
  Ok b (cursor (before ++ encodeLE 4 a ++ encodeLE 4 c ++ [b]) tl).
Proof.
  rewrite (bind_Ok _ _ _ _ _ (readLength_cursor a _ _)).
  rewrite (bind_Ok _ _ _ _ _ (readLength_cursor c _ _)).
  rewrite readOpcode_cursor. now rewrite <- !app_assoc.
Qed.

(** The pass for a database selector reads the index, the resize hint and
    the records, and arrives at the byte [stop] after them, which the loop
    over the records examines next. *)
Lemma readDatabase_encoded (fuel : nat) (index : Z) (sizes : option (Z * Z))
    (pairs : list KeyValue) (before : list byte) (stop : byte)
    (ahead : list byte) :
  Forall recordFits pairs ->
  (List.length pairs <= fuel)%nat ->
  stop <> ResizeDB ->
  readDatabase fuel []
    (cursor before
       (encodeLE 4 index ++ encodeResize sizes ++ encodeRecords pairs
          ++ stop :: ahead)) =
  readRecords (fuel - List.length pairs) stop pairs
    (cursor
       (before ++ encodeLE 4 index ++ encodeResize sizes
          ++ encodeRecords pairs ++ [stop]) ahead).
Proof.
  intros Hfits Hfuel Hstop. unfold readDatabase.
  rewrite (bind_Ok _ _ _ _ _
             (orFail_Ok _ _ _ _ _ (readLength_cursor index before _))).
  destruct (encodeRecords pairs ++ stop :: ahead) as [|b tl] eqn:Hbytes.
  { destruct (encodeRecords pairs); discriminate. }
  assert (Hb : Byte.eqb b ResizeDB = false).
  { destruct (first_record_byte pairs stop ahead b tl Hbytes)
      as [->|[->| ->]]; try reflexivity.
    destruct (Byte.eqb stop ResizeDB) eqn:Heq; [|reflexivity].
    apply Byte.byte_dec_bl in Heq. contradiction. }
  destruct sizes as [[a c]|]; cbn [encodeResize app].
  - rewrite (bind_Ok _ _ _ _ _ (readOpcode_cursor _ _ _ _)).
    change (Byte.eqb ResizeDB ResizeDB) with true. cbv iota.
    rewrite <- !app_assoc.
    rewrite (bind_Ok _ _ _ _ _ (readResize_cursor a c b _ tl)).
    rewrite <- !app_assoc.
    pose proof (readRecords_encoded pairs fuel []
                  (before ++ encodeLE 4 index ++ [ResizeDB] ++ encodeLE 4 a
                     ++ encodeLE 4 c)
                  stop ahead b tl Hfits Hfuel Hbytes) as Hrecords.
    norm_app_in Hrecords. norm_app. rewrite Hrecords. reflexivity.
  - rewrite (bind_Ok _ _ _ _ _ (readOpcode_cursor _ _ _ _)).
    rewrite Hb. unfold bind at 1. unfold ret at 1.
    pose proof (readRecords_encoded pairs fuel [] (before ++ encodeLE 4 index)
                  stop ahead b tl Hfits Hfuel Hbytes) as Hrecords.
    norm_app_in Hrecords. norm_app. rewrite Hrecords. reflexivity.
Qed.

(** The outer loop skips the metadata entries of the layout. *)
Lemma readOpcodes_metadata (metadata : list (string * string)) :
  forall (fuel : nat) (pairs : list KeyValue) (before ahead : list byte),
    Forall metadataFits metadata ->
    readOpcodes (List.length metadata + fuel) pairs
      (cursor before (concat (map encodeMetadata metadata) ++ ahead)) =
    readOpcodes fuel pairs
      (cursor (before ++ concat (map encodeMetadata metadata)) ahead).
Proof.
  induction metadata as [|entry metadata IH];
    intros fuel pairs before ahead Hfits.
  - cbn [map concat List.length app Nat.add]. now rewrite app_nil_r.
  - inversion Hfits as [|? ? [Hk Hv] Hfits']; subst.
    cbn [map concat List.length Nat.add]. unfold encodeMetadata at 1.
    cbn [app readOpcodes]. rewrite <- !app_assoc.
    rewrite (bind_Ok _ _ _ _ _ (readByte_cursor _ _ _)).
    change (Byte.eqb MetadataStart MetadataStart) with true. cbv iota.
    rewrite (bind_Ok _ _ _ _ _
               (orFail_Ok _ _ _ _ _
                  (skipMetadata_cursor entry _ _ Hk Hv))).
    rewrite IH by exact Hfits'.
    unfold encodeMetadata at 2. cbn [app]. now rewrite <- !app_assoc.
Qed.

(** [Read] on a file that starts as the layout says, up to the end of the
    records, and goes on with the byte [stop]: the signature is accepted,
    the metadata skipped, the records read, and the loop over the records
    examines [stop]. *)
Lemma Read_encodeUpTo (fuel : nat) (metadata : list (string * string))
    (index : Z) (sizes : option (Z * Z)) (pairs : list KeyValue)
    (stop : byte) (ahead : list byte) :
  Forall metadataFits metadata ->
  Forall recordFits pairs ->
  stop <> ResizeDB ->
  (List.length pairs <= fuel)%nat ->
  Read (List.length metadata + S fuel)
       (IsFile (encodeUpTo metadata index sizes pairs ++ stop :: ahead)) =
  match
    (get r := readRecords (fuel - List.length pairs) stop pairs in
     readOpcodes fuel (fst r))
      (cursor (encodeUpTo metadata index sizes pairs ++ [stop]) ahead)
  with
  | Ok pairs' _ => Pairs pairs'
  | Fail e => Failed e
  | Panics => Panicked
  | Diverges => OutOfFuel
  end.
Proof.
  intros Hmeta Hfits Hstop Hfuel. unfold Read, encodeUpTo, encodeDatabase.
  change (mkFile ?bytes 0) with (cursor [] bytes).
  pose proof (readFull_cursor [] (list_byte_of_string RDBHeader)) as Hhead.
  rewrite length_list_byte_of_string in Hhead.
  rewrite <- !app_assoc.
  rewrite (bind_Ok _ _ _ _ _ (orFail_Ok _ _ _ _ _ (Hhead _))).
  rewrite string_of_list_byte_of_string, String.eqb_refl. cbn [negb app].
  rewrite readOpcodes_metadata by exact Hmeta.
  cbn [readOpcodes].
  rewrite (bind_Ok _ _ _ _ _ (readByte_cursor _ _ _)).
  change (Byte.eqb DatabaseStart MetadataStart) with false.
  change (Byte.eqb DatabaseStart DatabaseStart) with true. cbv iota.
  rewrite <- !app_assoc.
  unfold bind at 1.
  rewrite (readDatabase_encoded fuel index sizes pairs _ stop ahead
             Hfits Hfuel Hstop).
  unfold bind. norm_app. reflexivity.
Qed.

(** [Read] on a complete file of the layout. *)
Lemma Read_encodeFile (fuel : nat) (metadata : list (string * string))
    (index : Z) (sizes : option (Z * Z)) (pairs : list KeyValue) :
  Forall metadataFits metadata ->
  Forall recordFits pairs ->
  (List.length metadata + List.length pairs + 2 <= fuel)%nat ->
  Read fuel (IsFile (encodeFile metadata index sizes pairs)) = Pairs pairs.
Proof.
  intros Hmeta Hfits Hfuel. unfold encodeFile.
  replace fuel with (List.length metadata
                     + S (fuel - List.length metadata - 1))%nat by lia.
  rewrite (Read_encodeUpTo _ metadata index sizes pairs EOF [] Hmeta Hfits)
    by (try discriminate; lia).
  rewrite (bind_Ok _ _ _ _ _
             (RdbProps.readRecords_stops _ EOF pairs _ (or_intror eq_refl))).
  cbn [fst].
  destruct (fuel - List.length metadata - 1)%nat as [|fuel'] eqn:Hf; [lia|].
  cbn [readOpcodes].
  now rewrite (bind_Ok _ _ _ _ _ (readByte_end _)).
Qed.

(** X15: round trip of the snapshot layout.  [Read] returns the records
    of a file laid out as [encodeFile] says, in their order, whatever the
    metadata entries, the database index and the resize hint, given fuel
    for one pass per metadata entry and per record and two more; and the
    startup code then loads exactly these records. *)
Theorem snapshot_round_trip (fuel : nat) (clock : nat -> Z)
    (metadata : list (string * string)) (index : Z)
    (sizes : option (Z * Z)) (pairs : list KeyValue) :
  Forall metadataFits metadata ->
  Forall recordFits pairs ->
  (List.length metadata + List.length pairs + 2 <= fuel)%nat ->
  Read fuel (IsFile (encodeFile metadata index sizes pairs)) = Pairs pairs /\
  startup fuel clock (IsFile (encodeFile metadata index sizes pairs)) =
    Some (loadPairs clock 0 pairs emptyStore).
Proof.
  intros Hmeta Hfits Hfuel. unfold startup.
  rewrite (Read_encodeFile fuel metadata index sizes pairs Hmeta Hfits Hfuel).
  split; reflexivity.
Qed.

Lemma byte_eqb_ne (a b : byte) : a <> b -> Byte.eqb a b = false.
Proof.
  intros Hne. destruct (Byte.eqb a b) eqn:Heq; [|reflexivity].
  apply Byte.byte_dec_bl in Heq. contradiction.
Qed.

(** X16: a byte after the records that is neither an opcode the loop over the
    records knows nor the type byte of a string: the load fails with
    "unsupported value type". *)
Theorem Read_unsupported_value_type (fuel : nat)
    (metadata : list (string * string)) (index : Z)
    (sizes : option (Z * Z)) (pairs : list KeyValue) (b : byte)
    (ahead : list byte) :
  Forall metadataFits metadata ->
  Forall recordFits pairs ->
  b <> ResizeDB -> b <> ExpireTimeMs -> b <> ExpireTime ->
  b <> DatabaseStart -> b <> EOF -> b <> TypeString ->
  (List.length metadata + List.length pairs + 2 <= fuel)%nat ->
  Read fuel (IsFile (encodeUpTo metadata index sizes pairs ++ b :: ahead)) =
    Failed (UnsupportedValueType b).
Proof.
  intros Hmeta Hfits Hresize Hms Hsec Hdb Heof Htype Hfuel.
  replace fuel with (List.length metadata
                     + S (fuel - List.length metadata - 1))%nat by lia.
  rewrite (Read_encodeUpTo _ metadata index sizes pairs b ahead Hmeta Hfits
             Hresize) by lia.
  destruct (fuel - List.length metadata - 1 - List.length pairs)%nat
    as [|n] eqn:Hn; [lia|].
  unfold bind at 1. cbn [readRecords].
  rewrite (byte_eqb_ne _ _ Hdb), (byte_eqb_ne _ _ Heof). cbn [orb].
  unfold readExpiry.
  rewrite (byte_eqb_ne _ _ Hsec), (byte_eqb_ne _ _ Hms).
  unfold bind at 1. unfold ret at 1.
  rewrite (byte_eqb_ne _ _ Htype). reflexivity.
Qed.

(** X17: a record whose key length is negative: [make] panics, and the load
    ends the process. *)
Theorem Read_negative_length_panics (fuel : nat)
    (metadata : list (string * string)) (index : Z)
    (sizes : option (Z * Z)) (pairs : list KeyValue) (n : Z)
    (ahead : list byte) :
  Forall metadataFits metadata ->
  Forall recordFits pairs ->
  - 2 ^ 31 <= n < 0 ->
  (List.length metadata + List.length pairs + 2 <= fuel)%nat ->
  Read fuel
    (IsFile (encodeUpTo metadata index sizes pairs
               ++ TypeString :: encodeLE 4 n ++ ahead)) = Panicked.
Proof.
  intros Hmeta Hfits Hn Hfuel.
  replace fuel with (List.length metadata
                     + S (fuel - List.length metadata - 1))%nat by lia.
  rewrite (Read_encodeUpTo _ metadata index sizes pairs TypeString _ Hmeta
             Hfits) by (try discriminate; lia).
  destruct (fuel - List.length metadata - 1 - List.length pairs)%nat
    as [|k] eqn:Hk; [lia|].
  unfold bind at 1. cbn [readRecords].
  change (Byte.eqb TypeString DatabaseStart || Byte.eqb TypeString EOF)
    with false. cbv iota.
  unfold readExpiry.
  change (Byte.eqb TypeString ExpireTime) with false.
  change (Byte.eqb TypeString ExpireTimeMs) with false. cbv iota.
  unfold bind at 1. unfold ret at 1.
  change (negb (Byte.eqb TypeString TypeString)) with false. cbv iota.
  unfold bind at 1. unfold orFail at 1. unfold readString.
  rewrite (bind_Ok _ _ _ _ _ (readLength_cursor n _ _)).
  replace (n mod 2 ^ 32) with (n + 2 ^ 32)
    by (apply Z.mod_unique with (q := -1); lia).
  assert (Hhigh : (n + 2 ^ 32 <? 2 ^ 31) = false) by (apply Z.ltb_ge; lia).
  rewrite Hhigh.
  assert (Hmake : makeOK 1 (n + 2 ^ 32 - 2 ^ 32) = false).
  { unfold makeOK. apply andb_false_iff. left. apply Z.leb_gt. lia. }
  rewrite Hmake. reflexivity.
Qed.

Lemma encodeUpTo_snoc (metadata : list (string * string)) (index : Z)
    (sizes : option (Z * Z)) (pairs : list KeyValue) (kv : KeyValue) :
  encodeUpTo metadata index sizes (pairs ++ [kv]) =
    encodeUpTo metadata index sizes pairs ++ encodeRecord kv.
Proof.
  unfold encodeUpTo, encodeDatabase, encodeRecords.
  rewrite map_app, concat_app. cbn [map concat]. rewrite app_nil_r.
  norm_app. reflexivity.
Qed.

(** X18: a file that ends right after its last record, without the end marker:
    the load fails on the read of the next opcode, and returns none of the
    records it has read. *)
Theorem Read_missing_end_marker (fuel : nat)
    (metadata : list (string * string)) (index : Z)
    (sizes : option (Z * Z)) (pairs : list KeyValue) (kv : KeyValue) :
  Forall metadataFits metadata ->
  Forall recordFits (pairs ++ [kv]) ->
  (List.length metadata + List.length pairs + 2 <= fuel)%nat ->
  Read fuel (IsFile (encodeUpTo metadata index sizes (pairs ++ [kv]))) =
    Failed ReadNextOpcodeFailed.
Proof.
  intros Hmeta Hfits Hfuel.
  apply Forall_app in Hfits. destruct Hfits as [Hfits Hlast].
  apply Forall_inv in Hlast.
  rewrite encodeUpTo_snoc, encodeRecord_split.
  replace fuel with (List.length metadata
                     + S (fuel - List.length metadata - 1))%nat by lia.
  rewrite (Read_encodeUpTo _ metadata index sizes pairs (firstByte kv) _
             Hmeta Hfits); [|unfold firstByte; destruct (HasExpiry kv);
                             discriminate|lia].
  destruct (fuel - List.length metadata - 1 - List.length pairs)%nat
    as [|k] eqn:Hk; [lia|].
  unfold bind at 1.
  now rewrite (readRecords_record_last k kv pairs _ Hlast).
Qed.

(** X19: a byte where the outer loop expects an opcode that is none of the
    metadata marker, the database selector and the end marker: the load
    fails with "unsupported opcode". *)
Theorem Read_unsupported_opcode (fuel : nat)
    (metadata : list (string * string)) (b : byte) (ahead : list byte) :
  Forall metadataFits metadata ->
  b <> MetadataStart -> b <> DatabaseStart -> b <> EOF ->
  (List.length metadata + 1 <= fuel)%nat ->
  Read fuel
    (IsFile (list_byte_of_string RDBHeader
               ++ concat (map encodeMetadata metadata) ++ b :: ahead)) =
    Failed (UnsupportedOpcode b).
Proof.
  intros Hmeta Hfa Hfe Hff Hfuel. unfold Read.
  change (mkFile ?bytes 0) with (cursor [] bytes).
  pose proof (readFull_cursor [] (list_byte_of_string RDBHeader)) as Hhead.
  rewrite length_list_byte_of_string in Hhead.
  rewrite (bind_Ok _ _ _ _ _ (orFail_Ok _ _ _ _ _ (Hhead _))).
  rewrite string_of_list_byte_of_string, String.eqb_refl. cbn [negb app].
  replace fuel with (List.length metadata
                     + S (fuel - List.length metadata - 1))%nat by lia.
  rewrite readOpcodes_metadata by exact Hmeta.
  cbn [readOpcodes].
  rewrite (bind_Ok _ _ _ _ _ (readByte_cursor _ _ _)).
  now rewrite (byte_eqb_ne _ _ Hfa), (byte_eqb_ne _ _ Hfe),
    (byte_eqb_ne _ _ Hff).
Qed.

(** X20: the signature is checked before anything else: a file shorter than
    the nine bytes of the signature, or one that starts with other bytes,
    is rejected whatever follows and whatever the fuel. *)
Theorem Read_rejects_bad_header (fuel : nat) (bytes : list byte) :
  firstn 9 bytes <> list_byte_of_string RDBHeader ->
  Read fuel (IsFile bytes) =
    Failed (if (List.length bytes <? 9)%nat then ReadHeaderFailed
            else InvalidHeader).
Proof.
  intros Hbad. unfold Read, bind, orFail, readFull. cbn [content pos].
  change (drop 0 bytes) with bytes.
  change (String.length RDBHeader) with 9%nat.
  destruct (9 <=? List.length bytes)%nat eqn:Hlen.
  - apply Nat.leb_le in Hlen.
    assert (Hlt : (List.length bytes <? 9)%nat = false)
      by (apply Nat.ltb_ge; lia).
    rewrite Hlt. cbv iota beta.
    destruct (String.eqb (string_of_list_byte (firstn 9 bytes)) RDBHeader)
      eqn:Heq; [|reflexivity].
    exfalso. apply Hbad. apply String.eqb_eq in Heq.
    rewrite <- Heq. now rewrite list_byte_of_string_of_list_byte.
  - apply Nat.leb_gt in Hlen.
    assert (Hlt : (List.length bytes <? 9)%nat = true)
      by (apply Nat.ltb_lt; lia).
    now rewrite Hlt.
Qed.

Lemma readUint32_cursor (n : Z) (before ahead : list byte) :
  0 <= n < 2 ^ 32 ->
  readUint32 (cursor before (encodeLE 4 n ++ ahead)) =
    Ok n (cursor (before ++ encodeLE 4 n) ahead).
Proof.
  intros Hn. unfold readUint32.
  pose proof (readFull_cursor before (encodeLE 4 n) ahead) as Hfull.
  rewrite length_encodeLE in Hfull.
  rewrite (bind_Ok _ _ _ _ _ Hfull). unfold ret.
  rewrite littleEndian_encodeLE. now rewrite Z.mod_small by lia.
Qed.

(** X24: an expiry in seconds.  A record that starts with the marker of an
    expiry in seconds and four bytes of seconds is read as a record that
    expires at that second of the epoch; here it is the last record of the
    file, after any records of the layout. *)
Theorem Read_seconds_expiry (fuel : nat)
    (metadata : list (string * string)) (index : Z)
    (sizes : option (Z * Z)) (pairs : list KeyValue) (secs : Z)
    (key val : string) :
  Forall metadataFits metadata ->
  Forall recordFits pairs ->
  stringFits key -> stringFits val ->
  0 <= secs < 2 ^ 32 ->
  (List.length metadata + List.length pairs + 3 <= fuel)%nat ->
  Read fuel
    (IsFile (encodeUpTo metadata index sizes pairs
               ++ ExpireTime :: encodeLE 4 secs
               ++ TypeString :: encodeString key ++ encodeString val
               ++ [EOF])) =
    Pairs (pairs ++ [mkKeyValue key val true (secs * Time.Second)]).
Proof.
  intros Hmeta Hfits Hkey Hval Hsecs Hfuel.
  replace fuel with (List.length metadata
                     + S (fuel - List.length metadata - 1))%nat by lia.
  rewrite (Read_encodeUpTo _ metadata index sizes pairs ExpireTime _ Hmeta
             Hfits) by (try discriminate; lia).
  destruct (fuel - List.length metadata - 1 - List.length pairs)%nat
    as [|k] eqn:Hk; [lia|].
  unfold bind at 1. cbn [readRecords].
  change (Byte.eqb ExpireTime DatabaseStart || Byte.eqb ExpireTime EOF)
    with false. cbv iota.
  assert (Hexp :
    readExpiry ExpireTime
      (cursor (encodeUpTo metadata index sizes pairs ++ [ExpireTime])
         (encodeLE 4 secs
          ++ TypeString :: encodeString key ++ encodeString val ++ [EOF])) =
    Ok (true, secs * Time.Second, TypeString)
       (cursor ((encodeUpTo metadata index sizes pairs ++ [ExpireTime])
                  ++ encodeLE 4 secs ++ [TypeString])
               (encodeString key ++ encodeString val ++ [EOF]))).
  { unfold readExpiry.
    change (Byte.eqb ExpireTime ExpireTime) with true. cbv iota.
    rewrite (bind_Ok _ _ _ _ _ (readUint32_cursor secs _ _ Hsecs)).
    rewrite (bind_Ok _ _ _ _ _ (readOpcode_cursor Passed _ _ _)).
    unfold ret, Time.Unix. now rewrite <- app_assoc. }
  rewrite (bind_Ok _ _ _ _ _ Hexp).
  change (negb (Byte.eqb TypeString TypeString)) with false. cbv iota.
  rewrite (bind_Ok _ _ _ _ _
             (orFail_Ok _ _ _ _ _ (readString_cursor key _ _ Hkey))).
  rewrite (bind_Ok _ _ _ _ _
             (orFail_Ok _ _ _ _ _ (readString_cursor val _ _ Hval))).
  rewrite (bind_Ok _ _ _ _ _ (readOpcode_cursor _ _ _ _)).
  rewrite RdbProps.readRecords_stops by now right.
  cbn [fst].
  destruct (fuel - List.length metadata - 1)%nat as [|fuel'] eqn:Hf; [lia|].
  cbn [readOpcodes].
  now rewrite (bind_Ok _ _ _ _ _ (readByte_end _)).
Qed.

Lemma seek_back (before bs ahead : list byte) :
  seek (- Z.of_nat (List.length bs)) (cursor (before ++ bs) ahead) =
    Ok tt (cursor before (bs ++ ahead)).
Proof.
  unfold seek, cursor. cbn [content pos]. rewrite length_app.
  assert (Hpos : (Z.of_nat (List.length before + List.length bs)
                  + - Z.of_nat (List.length bs) <? 0) = false)
    by (apply Z.ltb_ge; lia).
  rewrite Hpos. rewrite <- app_assoc. f_equal. f_equal. lia.
Qed.

(** The pass over the entry [loopEntry] ends where it began. *)
Lemma readOpcodes_loopEntry (fuel : nat) (pairs : list KeyValue)
    (key : string) (before ahead : list byte) :
  Z.of_nat (String.length key) < 2 ^ 31 - 9 ->
  readOpcodes (S fuel) pairs (cursor before (loopEntry key ++ ahead)) =
    readOpcodes fuel pairs (cursor before (loopEntry key ++ ahead)).
Proof.
  intros Hkey. unfold loopEntry. cbn [readOpcodes]. norm_app.
  rewrite (bind_Ok _ _ _ _ _ (readByte_cursor _ _ _)).
  change (Byte.eqb MetadataStart MetadataStart) with true. cbv iota.
  assert (Hskip :
    orFail skipMetadata SkipMetadataFailed
      (cursor (before ++ [MetadataStart])
         (encodeString key
          ++ encodeLE 4 (- (9 + Z.of_nat (String.length key))) ++ ahead)) =
    Ok tt
       (cursor before
          (MetadataStart :: encodeString key
           ++ encodeLE 4 (- (9 + Z.of_nat (String.length key))) ++ ahead))).
  { apply orFail_Ok. unfold skipMetadata.
    rewrite (bind_Ok _ _ _ _ _
               (skipString_cursor key _ _ ltac:(lia))).
    unfold skipString.
    rewrite (bind_Ok _ _ _ _ _ (readLength_cursor _ _ _)).
    set (len := Z.of_nat (String.length key)) in *.
    replace ((- (9 + len)) mod 2 ^ 32) with (2 ^ 32 - (9 + len))
      by (apply Z.mod_unique with (q := -1); lia).
    assert (Hhigh : (2 ^ 32 - (9 + len) <? 2 ^ 31) = false)
      by (apply Z.ltb_ge; lia).
    rewrite Hhigh.
    pose proof (seek_back before
                  ([MetadataStart] ++ encodeString key
                   ++ encodeLE 4 (- (9 + len))) ahead) as Hback.
    rewrite !length_app in Hback. unfold encodeString in Hback at 1.
    rewrite length_app, !length_encodeLE, length_list_byte_of_string in Hback.
    cbn [List.length] in Hback.
    replace (- Z.of_nat (1 + (4 + String.length key + 4)))
      with (2 ^ 32 - (9 + len) - 2 ^ 32) in Hback by (unfold len; lia).
    norm_app_in Hback. norm_app. exact Hback. }
  rewrite (bind_Ok _ _ _ _ _ Hskip). reflexivity.
Qed.

(** X21: a file on which the load never ends.  A metadata entry whose value
    length is minus the number of bytes of the entry read so far sends the
    file offset back to the entry's own marker: the loop then reads the
    same entry again and again.  No amount of fuel brings [Read] to an
    end, whatever precedes the entry as metadata and whatever follows. *)
Theorem Read_loops_forever (metadata : list (string * string))
    (key : string) (ahead : list byte) :
  Forall metadataFits metadata ->
  Z.of_nat (String.length key) < 2 ^ 31 - 9 ->
  forall fuel,
    Read fuel
      (IsFile (list_byte_of_string RDBHeader
                 ++ concat (map encodeMetadata metadata)
                 ++ loopEntry key ++ ahead)) = OutOfFuel.
Proof.
  intros Hmeta Hkey fuel. unfold Read.
  change (mkFile ?bytes 0) with (cursor [] bytes).
  pose proof (readFull_cursor [] (list_byte_of_string RDBHeader)) as Hhead.
  rewrite length_list_byte_of_string in Hhead.
  rewrite (bind_Ok _ _ _ _ _ (orFail_Ok _ _ _ _ _ (Hhead _))).
  rewrite string_of_list_byte_of_string, String.eqb_refl. cbn [negb app].
  assert (Hloop : forall n before,
            readOpcodes n [] (cursor before (loopEntry key ++ ahead))
            = Diverges).
  { induction n as [|n IH]; intros before; [reflexivity|].
    rewrite readOpcodes_loopEntry by exact Hkey. apply IH. }
  assert (Hall : forall n before,
            readOpcodes n []
              (cursor before
                 (concat (map encodeMetadata metadata)
                  ++ loopEntry key ++ ahead)) = Diverges).
  { clear Hhead. induction metadata as [|entry metadata IH];
      intros n before.
    - apply Hloop.
    - inversion Hmeta as [|? ? Hentry Hmeta']; subst.
      destruct n as [|n]; [reflexivity|].
      assert (Hone : Forall metadataFits [entry])
        by (constructor; [exact Hentry|constructor]).
      pose proof (readOpcodes_metadata [entry] n [] before
                    (concat (map encodeMetadata metadata)
                     ++ loopEntry key ++ ahead) Hone) as Hstep.
      cbn [List.length Nat.add map concat] in Hstep.
      rewrite app_nil_r in Hstep.
      cbn [map concat]. rewrite <- app_assoc. rewrite Hstep.
      apply IH. exact Hmeta'. }
  now rewrite Hall.
Qed.

End WithRuntime.

(** *** Instances on the sample records *)

Lemma pairAB_fits : @recordFits amd64 Samples.pairAB.
Proof.
  unfold recordFits, stringFits. change (@maxAlloc amd64) with (2 ^ 48).
  cbn. repeat split; lia.
Qed.

Lemma pairCD_fits : @recordFits amd64 Samples.pairCD.
Proof.
  unfold recordFits, stringFits. change (@maxAlloc amd64) with (2 ^ 48).
  cbn. repeat split; try lia.
  exists 2. unfold Time.Millisecond. lia.
Qed.

Lemma one_pair_fits : Forall (@recordFits amd64) [Samples.pairAB].
Proof. constructor; [exact pairAB_fits|constructor]. Qed.

Lemma two_pairs_fit :
  Forall (@recordFits amd64) [Samples.pairAB; Samples.pairCD].
Proof.
  constructor; [exact pairAB_fits|].
  constructor; [exact pairCD_fits|constructor].
Qed.

Lemma sample_metadata_fits : Forall metadataFits [("redis-ver", "7.2.0")].
Proof. repeat constructor; cbn; lia. Qed.

Lemma snapshot_round_trip_witness :
  @Read amd64 5
    (IsFile (encodeFile [("redis-ver", "7.2.0")] 0 (Some (2, 1))
               [Samples.pairAB; Samples.pairCD]))
    = Pairs [Samples.pairAB; Samples.pairCD] /\
  @startup amd64 5 (fun _ => 0)
    (IsFile (encodeFile [("redis-ver", "7.2.0")] 0 (Some (2, 1))
               [Samples.pairAB; Samples.pairCD]))
    = Some (loadPairs (fun _ => 0) 0 [Samples.pairAB; Samples.pairCD]
              emptyStore).
Proof.
  apply (@snapshot_round_trip amd64).
  - exact sample_metadata_fits.
  - exact two_pairs_fit.
  - cbn. lia.
Defined.

Lemma Read_seconds_expiry_witness :
  @Read amd64 5
    (IsFile (encodeUpTo [] 0 None [Samples.pairAB]
               ++ ExpireTime :: encodeLE 4 1700000000
               ++ TypeString :: encodeString "k" ++ encodeString "v"
               ++ [EOF]))
    = Pairs ([Samples.pairAB]
             ++ [mkKeyValue "k" "v" true (1700000000 * Time.Second)]).
Proof.
  apply (@Read_seconds_expiry amd64).
  - constructor.
  - exact one_pair_fits.
  - unfold stringFits. change (@maxAlloc amd64) with (2 ^ 48). cbn. lia.
  - unfold stringFits. change (@maxAlloc amd64) with (2 ^ 48). cbn. lia.
  - lia.
  - cbn. lia.
Defined.

Lemma Read_unsupported_value_type_witness :
  @Read amd64 5
    (IsFile (encodeUpTo [] 0 None [Samples.pairAB] ++ [Byte.x02; Byte.x00]))
    = Failed (UnsupportedValueType Byte.x02).
Proof.
  apply (@Read_unsupported_value_type amd64); try discriminate.
  - constructor.
  - exact one_pair_fits.
  - cbn. lia.
Defined.

Lemma Read_negative_length_panics_witness :
  @Read amd64 5
    (IsFile (encodeUpTo [] 0 None [Samples.pairAB]
               ++ TypeString :: encodeLE 4 (-1) ++ [Byte.x61]))
    = Panicked.
Proof.
  apply (@Read_negative_length_panics amd64).
  - constructor.
  - exact one_pair_fits.
  - lia.
  - cbn. lia.
Defined.

Lemma Read_missing_end_marker_witness :
  @Read amd64 5
    (IsFile (encodeUpTo [] 0 None ([Samples.pairAB] ++ [Samples.pairCD])))
    = Failed ReadNextOpcodeFailed.
Proof.
  apply (@Read_missing_end_marker amd64).
  - constructor.
  - exact two_pairs_fit.
  - cbn. lia.
Defined.

Lemma Read_unsupported_opcode_witness :
  @Read amd64 5
    (IsFile (list_byte_of_string RDBHeader
               ++ concat (map encodeMetadata [("redis-ver", "7.2.0")])
               ++ [Byte.x07]))
    = Failed (UnsupportedOpcode Byte.x07).
Proof.
  apply (@Read_unsupported_opcode amd64); try discriminate.
  - exact sample_metadata_fits.
  - cbn. lia.
Defined.

Lemma Read_rejects_bad_header_witness :
  @Read amd64 5 (IsFile (list_byte_of_string "REDIS0012" ++ [Byte.xff]))
    = Failed InvalidHeader.
Proof.
  apply (@Read_rejects_bad_header amd64 5
           (list_byte_of_string "REDIS0012" ++ [Byte.xff])).
  vm_compute. discriminate.
Defined.

Lemma Read_loops_forever_witness :
  @Read amd64 1000
    (IsFile (list_byte_of_string RDBHeader
               ++ concat (map encodeMetadata []) ++ loopEntry "" ++ []))
    = OutOfFuel.
Proof.
  apply (@Read_loops_forever amd64 [] "" []).
  - constructor.
  - cbn. lia.
Defined.

End SnapshotProps.

(** ** More on loading: what the load leaves alone, and the way from the
    bytes of the file to the reply of a GET *)

Module LoadMore.
Import Rdb Snapshot.

(** X22: the load only adds or overwrites entries, and only under the keys the
    records name: the entry of any other key is as before, and a key that
    was in the store is still in it. *)
Theorem load_only_touches_named_keys (clock : nat -> Z)
    (pairs : list KeyValue) (k : string) :
  forall (tick : nat) (s : Store),
    ((forall kv, kv ∈ pairs -> Key kv <> k) ->
     data (loadPairs clock tick pairs s) !! k = data s !! k) /\
    (is_Some (data s !! k) ->
     is_Some (data (loadPairs clock tick pairs s) !! k)).
Proof.
  intros tick s. split.
  - intros Hother. apply LoadProps.loadPairs_untouched.
    intros kv Hin Hkey. exfalso. exact (Hother kv Hin Hkey).
  - revert tick s. induction pairs as [|kv rest IH]; intros tick s Hsome;
      [exact Hsome|].
    assert (Hset : forall px now,
              is_Some (data (Store_Set s (Key kv) (Value kv) px now) !! k)).
    { intros px now. unfold Store_Set. cbn [data].
      destruct (decide (Key kv = k)) as [->|Hne].
      - rewrite lookup_insert_eq. eauto.
      - now rewrite lookup_insert_ne. }
    cbn [loadPairs].
    destruct (HasExpiry kv).
    + destruct (_ <=? 0); apply IH; [exact Hsome|apply Hset].
    + apply IH. apply Hset.
Qed.

Lemma load_only_touches_named_keys_witness :
  data (loadPairs (fun _ => 0) 0 [Samples.pairAB; Samples.pairCD]
          storeWithTtl) !! "k" = data storeWithTtl !! "k".
Proof.
  apply (proj1 (load_only_touches_named_keys (fun _ => 0)
                  [Samples.pairAB; Samples.pairCD] "k" 0%nat storeWithTtl)).
  intros kv Hin. apply list_elem_of_In in Hin. cbn in Hin.
  destruct Hin as [<-|[<-|[]]]; discriminate.
Defined.

(** X23: from the file to the reply.  After the startup load of a file laid out
    as [encodeFile] says, a GET of the key of a record without expiry
    replies with the value of that record, when no later record of the
    file has the same key. *)
Theorem startup_then_get `{GoRuntime} (fuel : nat) (clock : nat -> Z)
    (config : Config) (metadata : list (string * string)) (index : Z)
    (sizes : option (Z * Z)) (before : list KeyValue) (kv : KeyValue)
    (after : list KeyValue) (cmd : string) (now : Z) (wok : bool) :
  Forall metadataFits metadata ->
  Forall recordFits (before ++ kv :: after) ->
  (List.length metadata + List.length (before ++ kv :: after) + 2
   <= fuel)%nat ->
  HasExpiry kv = false ->
  (forall kv', kv' ∈ after -> Key kv' <> Key kv) ->
  ToUpper cmd = "GET" ->
  exists st,
    startup fuel clock
      (IsFile (encodeFile metadata index sizes (before ++ kv :: after)))
      = Some st /\
    written (dispatch config [cmd; Key kv] st now wok) = [bulkOf (Value kv)].
Proof.
  intros Hmeta Hfits Hfuel Hexp Hafter Hget.
  unfold startup.
  rewrite (SnapshotProps.Read_encodeFile fuel metadata index sizes _
             Hmeta Hfits Hfuel).
  eexists. split; [reflexivity|].
  rewrite (DispatchProps.dispatch_get config cmd (Key kv) _ now wok Hget).
  cbn [checked written]. rewrite DispatchProps.Store_Get_exists.
  destruct (LoadProps.loadPairs_app clock before 0%nat emptyStore)
    as [tick' [s' Happ]].
  rewrite Happ. cbn [loadPairs]. rewrite Hexp.
  rewrite (LoadProps.loadPairs_untouched clock (Key kv) after).
  - rewrite StoreProps.Store_Set_no_ttl by lia. reflexivity.
  - intros kv' Hin Hkey. exfalso. exact (Hafter kv' Hin Hkey).
Qed.

Lemma startup_then_get_witness :
  exists st,
    @startup amd64 5 (fun _ => 0)
      (IsFile (encodeFile [] 0 None ([] ++ Samples.pairAB :: [Samples.pairCD])))
      = Some st /\
    written (@dispatch amd64 sampleConfig ["get"; "a"] st 0 true)
      = ["$1" ++ eol ++ "b" ++ eol].
Proof.
  apply (@startup_then_get amd64 5 (fun _ => 0) sampleConfig [] 0 None []
           Samples.pairAB [Samples.pairCD] "get" 0 true).
  - constructor.
  - exact SnapshotProps.two_pairs_fit.
  - cbn. lia.
  - reflexivity.
  - intros kv' Hin. apply list_elem_of_In in Hin. cbn in Hin.
    destruct Hin as [<-|[]]. discriminate.
  - reflexivity.
Defined.

End LoadMore.
